(** * verify_discriminated_unions.py: a shallow embedding

    The script under [jules-scratch/verification] drives a headless browser
    through the Playwright synchronous API: it launches Chromium, opens a
    page, loads a local form, selects three options and takes four
    screenshots, then closes the browser.

    The script itself is straight-line code; everything it can observe is
    decided by the browser, the served page and the file system.  Those are
    gathered in a [world] record, and the Playwright calls the script makes
    are embedded as computations in a state-and-exception monad over the
    process state (driver, browser, DOM, files written, calls issued). *)

From stdpp Require Import base strings list gmap sorting.

(** ** The served document *)

(** An [<option>] of a [<select>]: its [value] and its visible label. *)
Record option_elt := { opt_value : string; opt_label : string }.

(** An element of the document, as far as a CSS attribute selector and
    [select_option] look at it. *)
Record element := {
  tag : string;
  attrs : list (string * string);
  options : list option_elt;
  value : string
}.

(** The document: its elements in document order. *)
Abbreviation document := (list element).

Definition set_value (v : string) (e : element) : element :=
  {| tag := tag e; attrs := attrs e; options := options e; value := v |}.

Fixpoint get_attribute (k : string) (l : list (string * string)) : option string :=
  match l with
  | [] => None
  | (k', v) :: l' => if bool_decide (k' = k) then Some v else get_attribute k l'
  end.

(** ** Locators *)

(** How a locator that matches several elements is narrowed:
    [.first], [.last], or not at all (Playwright's strict mode). *)
Inductive pick := Strict | First | Last.

(** [page.locator('tag[attr="val"]')], possibly followed by [.first] or
    [.last].  The three selectors of the script all have this shape. *)
Record locator := {
  sel_tag : string;
  sel_attr : string;
  sel_val : string;
  sel_pick : pick
}.

Definition css (t a v : string) : locator :=
  {| sel_tag := t; sel_attr := a; sel_val := v; sel_pick := Strict |}.

Definition with_pick (p : pick) (l : locator) : locator :=
  {| sel_tag := sel_tag l; sel_attr := sel_attr l; sel_val := sel_val l;
     sel_pick := p |}.

Definition matches (l : locator) (e : element) : bool :=
  bool_decide (tag e = sel_tag l)
  && bool_decide (get_attribute (sel_attr l) (attrs e) = Some (sel_val l)).

(** Positions (in document order, counted from [i]) of the matching elements. *)
Fixpoint matching_from (l : locator) (i : nat) (d : document) : list nat :=
  match d with
  | [] => []
  | e :: d' =>
      if matches l e then i :: matching_from l (S i) d'
      else matching_from l (S i) d'
  end.

Definition matching (l : locator) (d : document) : list nat :=
  matching_from l 0 d.

(** ** Errors raised by the Playwright calls *)

Inductive error :=
| DriverError            (* the driver could not be started, or is not running *)
| LaunchError            (* chromium.launch() failed *)
| PageError              (* browser.new_page() failed *)
| TargetClosed           (* the page or browser was closed *)
| NavigationError        (* page.goto(): the address could not be loaded *)
| NoElement              (* the locator matched nothing *)
| StrictModeViolation    (* an unnarrowed locator matched several elements *)
| OptionNotFound         (* select_option(): no such option on the control *)
| ScreenshotError.       (* page.screenshot(): the file could not be written *)

Global Instance error_eq_dec : EqDecision error.
Proof. solve_decision. Defined.

(** Resolution of a locator to the one element an action is performed on. *)
Definition resolve (l : locator) (d : document) : error + nat :=
  match matching l d with
  | [] => inl NoElement
  | i :: rest =>
      match sel_pick l with
      | First => inr i
      | Last => inr (List.last rest i)
      | Strict => match rest with [] => inr i | _ :: _ => inl StrictModeViolation end
      end
  end.

(** A string passed to [select_option] is compared with both the value and
    the label of each option; a single-choice select takes the first match. *)
Definition option_matches (v : string) (o : option_elt) : bool :=
  bool_decide (opt_value o = v) || bool_decide (opt_label o = v).

Definition choose (v : string) (e : element) : option string :=
  opt_value <$> List.find (option_matches v) (options e).

(** ** The world outside the script *)

(** What is captured by [page.screenshot]: the document as it stands, and
    whether the whole scrollable page or only the viewport was taken. *)
Record image := { img_dom : document; img_full_page : bool }.

Record world := {
  driver_ok : bool;                         (* the Playwright driver starts *)
  launch_ok : bool;                         (* Chromium can be launched *)
  new_page_ok : bool;                       (* a page can be opened *)
  server : string → option document;        (* what an address serves, if reachable *)
  on_change : nat → document → document;    (* the application's reaction to a
                                               change of the element at a position *)
  writable : string → bool                  (* whether a path can be written *)
}.

(** ** Process state *)

Inductive action :=
| ALaunch
| ANewPage
| AGoto (url : string)
| AScreenshot (path : string) (full_page : option bool)
| ASelectOption (l : locator) (v : string)
| AClose.

Record state := {
  driver_running : bool;       (* the driver started by sync_playwright() runs *)
  browser_open : bool;         (* a browser was launched and close() not yet called *)
  page_open : bool;
  dom : document;              (* the document of the open page *)
  fs : gmap string image;      (* files on disk *)
  trace : list action          (* the browser calls issued so far, oldest first *)
}.

Definition init (files : gmap string image) : state :=
  {| driver_running := false; browser_open := false; page_open := false;
     dom := []; fs := files; trace := [] |}.

Definition set_driver (b : bool) (s : state) : state :=
  {| driver_running := b; browser_open := browser_open s;
     page_open := page_open s; dom := dom s; fs := fs s; trace := trace s |}.

Definition set_browser (b : bool) (s : state) : state :=
  {| driver_running := driver_running s; browser_open := b;
     page_open := page_open s; dom := dom s; fs := fs s; trace := trace s |}.

Definition set_page (b : bool) (d : document) (s : state) : state :=
  {| driver_running := driver_running s; browser_open := browser_open s;
     page_open := b; dom := d; fs := fs s; trace := trace s |}.

Definition write_file (path : string) (i : image) (s : state) : state :=
  {| driver_running := driver_running s; browser_open := browser_open s;
     page_open := page_open s; dom := dom s; fs := <[path := i]> (fs s);
     trace := trace s |}.

Definition log (a : action) (s : state) : state :=
  {| driver_running := driver_running s; browser_open := browser_open s;
     page_open := page_open s; dom := dom s; fs := fs s;
     trace := trace s ++ [a] |}.

(** ** The monad of the script: state, and exceptions that keep the state *)

Definition M (A : Type) : Type := state → state * (error + A).

Global Instance M_ret : MRet M := λ A x s, (s, inr x).

Global Instance M_bind : MBind M := λ A B f m s,
  match m s with
  | (s', inl e) => (s', inl e)
  | (s', inr x) => f x s'
  end.

Definition raise {A} (e : error) : M A := λ s, (s, inl e).
Definition modify (f : state → state) : M unit := λ s, (f s, inr ()).
Definition gets {A} (f : state → A) : M A := λ s, (s, inr (f s)).

(** Python's [with enter() as r: body]: [exit] runs whether or not the body
    raised, and an exception of the body propagates afterwards. *)
Definition with_ {R A} (enter : M R) (exit : M unit) (body : R → M A) : M A :=
  λ s,
    match enter s with
    | (s1, inl e) => (s1, inl e)
    | (s1, inr r) =>
        match body r s1 with
        | (s2, res) =>
            match exit s2 with
            | (s3, inl e) => (s3, inl e)
            | (s3, inr _) => (s3, res)
            end
        end
    end.

(** Handles returned by the API; the script holds one of each. *)
Inductive playwright := Playwright.
Inductive browser := Browser.
Inductive page := Page.

(** ** The Playwright calls the script makes *)

Section Api.
Variable w : world.

(** [select_option] on a document: resolve the locator, find the option,
    set the control's value and let the application react.  Playwright
    waits for the element and the option up to a timeout first; the
    document is taken to be at rest between two calls of the script. *)
Definition select_on (l : locator) (v : string) (d : document) : error + document :=
  match resolve l d with
  | inl e => inl e
  | inr i =>
      match d !! i with
      | None => inl NoElement
      | Some e =>
          match choose v e with
          | None => inl OptionNotFound
          | Some v' => inr (on_change w i (<[i := set_value v' e]> d))
          end
      end
  end.

Definition require_page : M unit :=
  open ← gets page_open;
  if open : bool then mret () else raise TargetClosed.

(** [with sync_playwright() as playwright]: entering starts the driver,
    leaving stops it. *)
Definition sync_playwright_enter : M playwright :=
  if driver_ok w then modify (set_driver true);; mret Playwright
  else raise DriverError.

Definition sync_playwright_exit : M unit := modify (set_driver false).

(** [playwright.chromium.launch()]: the [playwright] object reaches the
    browsers through its driver, which has to be running. *)
Definition launch (pw : playwright) : M browser :=
  modify (log ALaunch);;
  running ← gets driver_running;
  if negb running then raise DriverError
  else if launch_ok w then modify (set_browser true);; mret Browser
  else raise LaunchError.

(** [browser.new_page()]: a blank page. *)
Definition new_page (b : browser) : M page :=
  modify (log ANewPage);;
  open ← gets browser_open;
  if negb open then raise TargetClosed
  else if new_page_ok w then modify (set_page true []);; mret Page
  else raise PageError.

(** [page.goto(url)] *)
Definition goto (p : page) (url : string) : M unit :=
  modify (log (AGoto url));;
  require_page;;
  match server w url with
  | Some d => modify (set_page true d)
  | None => raise NavigationError
  end.

(** [page.screenshot(path=..., full_page=...)]; [full_page] is an optional
    keyword argument of the API whose default is [False]. *)
Definition screenshot (p : page) (path : string) (full_page : option bool) : M unit :=
  modify (log (AScreenshot path full_page));;
  require_page;;
  d ← gets dom;
  if writable w path
  then modify (write_file path {| img_dom := d; img_full_page := default false full_page |})
  else raise ScreenshotError.

(** [page.locator(selector)], [.first] and [.last] only build a locator. *)
Definition locator_ (p : page) (t a v : string) : locator := css t a v.
Definition first_ (l : locator) : locator := with_pick First l.
Definition last_ (l : locator) : locator := with_pick Last l.

(** [locator.select_option(value)] *)
Definition select_option (l : locator) (v : string) : M unit :=
  modify (log (ASelectOption l v));;
  require_page;;
  d ← gets dom;
  match select_on l v d with
  | inl e => raise e
  | inr d' => modify (set_page true d')
  end.

(** [browser.close()] *)
Definition close (b : browser) : M unit :=
  modify (log AClose);;
  modify (set_browser false);;
  d ← gets dom;
  modify (set_page false d).

(** ** The script *)

Definition url : string := "http://localhost:3004/".
Definition path1 : string := "jules-scratch/verification/01_initial.png".
Definition path2 : string := "jules-scratch/verification/02_auto_form_dog.png".
Definition path3 : string := "jules-scratch/verification/03_field_example_b.png".
Definition path4 : string := "jules-scratch/verification/04_select_example_member.png".

(** [select[name="type"]] then [.first], [select[aria-label="kind"]],
    [select[aria-label="type"]] then [.last]. *)
Definition loc1 (p : page) : locator := first_ (locator_ p "select" "name" "type").
Definition loc2 (p : page) : locator := locator_ p "select" "aria-label" "kind".
Definition loc3 (p : page) : locator := last_ (locator_ p "select" "aria-label" "type").

(** [def run(playwright)], lines 3 to 22. *)
Definition run (playwright : playwright) : M unit :=
  browser ← launch playwright;
  page ← new_page browser;
  goto page url;;
  screenshot page path1 None;;
  select_option (loc1 page) "dog";;
  screenshot page path2 None;;
  select_option (loc2 page) "b";;
  screenshot page path3 None;;
  select_option (loc3 page) "member";;
  screenshot page path4 None;;
  close browser.

(** Lines 24 and 25: [with sync_playwright() as playwright: run(playwright)]. *)
Definition main : M unit :=
  with_ sync_playwright_enter sync_playwright_exit (λ playwright, run playwright).

(** One invocation of the script on the files already on disk. *)
Definition invoke (files : gmap string image) : state * (error + unit) :=
  main (init files).

(** ** The script as the list of calls it issues

    [run] is straight-line code, so it is also the interpretation, call by
    call, of a fixed list of actions.  The list view is what the lemmas on
    prefixes of the run are stated on. *)

Definition perform (a : action) : M unit :=
  match a with
  | ALaunch => launch Playwright;; mret ()
  | ANewPage => new_page Browser;; mret ()
  | AGoto u => goto Page u
  | AScreenshot p fp => screenshot Page p fp
  | ASelectOption l v => select_option l v
  | AClose => close Browser
  end.

Fixpoint perform_all (l : list action) : M unit :=
  match l with
  | [] => mret ()
  | a :: l' => perform a;; perform_all l'
  end.

(** The state in which the body of the [with] block starts. *)
Definition started (files : gmap string image) : state :=
  set_driver true (init files).
End Api.

(** Exit status of the interpreter: 0 when the module body ends normally,
    1 when an exception reaches the top level. *)
Definition exit_status (r : error + unit) : nat :=
  match r with inr _ => 0 | inl _ => 1 end.

(** The calls of [run], in program order (lines 4 to 22). *)
Definition script : list action :=
  [ ALaunch;
    ANewPage;
    AGoto url;
    AScreenshot path1 None;
    ASelectOption (loc1 Page) "dog";
    AScreenshot path2 None;
    ASelectOption (loc2 Page) "b";
    AScreenshot path3 None;
    ASelectOption (loc3 Page) "member";
    AScreenshot path4 None;
    AClose ].

(** The four screenshot files, in the order they are written. *)
Definition paths : list string := [path1; path2; path3; path4].

(** ** A concrete world: the form with its three examples *)

Definition opt (v : string) : option_elt := {| opt_value := v; opt_label := v |}.

Definition select_elt (a : list (string * string)) (os : list string) (v : string) : element :=
  {| tag := "select"; attrs := a; options := opt <$> os; value := v |}.

Definition demo_doc : document :=
  [ select_elt [("name", "type")] ["cat"; "dog"] "cat";
    select_elt [("aria-label", "kind")] ["a"; "b"] "a";
    select_elt [("name", "type"); ("aria-label", "type")] ["guest"; "member"] "guest" ].

Definition demo_world : world :=
  {| driver_ok := true; launch_ok := true; new_page_ok := true;
     server := λ u, if bool_decide (u = url) then Some demo_doc else None;
     on_change := λ _ d, d;
     writable := λ _, true |}.

(** The same form with nothing listening at the address. *)
Definition unreachable_world : world :=
  {| driver_ok := true; launch_ok := true; new_page_ok := true;
     server := λ _, None; on_change := λ _ d, d; writable := λ _, true |}.

(** The scenario in the words of the specification: navigate, then four
    screenshots with a selection before each but the first, then close. *)
Definition scenario : list action :=
  [ AGoto "http://localhost:3004/";
    AScreenshot path1 None;
    ASelectOption {| sel_tag := "select"; sel_attr := "name";
                     sel_val := "type"; sel_pick := First |} "dog";
    AScreenshot path2 None;
    ASelectOption {| sel_tag := "select"; sel_attr := "aria-label";
                     sel_val := "kind"; sel_pick := Strict |} "b";
    AScreenshot path3 None;
    ASelectOption {| sel_tag := "select"; sel_attr := "aria-label";
                     sel_val := "type"; sel_pick := Last |} "member";
    AScreenshot path4 None;
    AClose ].

(** A screenshot taken with the default options: the viewport only. *)
Definition shot (d : document) : image :=
  {| img_dom := d; img_full_page := false |}.

(** The state in which a successful [run] leaves the process, given the
    document that was served and the documents after each selection. *)
Definition final_state (files : gmap string image) (d0 d1 d2 d3 : document) : state :=
  {| driver_running := true; browser_open := false; page_open := false;
     dom := d3;
     fs := <[path4 := shot d3]> (<[path3 := shot d2]>
             (<[path2 := shot d1]> (<[path1 := shot d0]> files)));
     trace := script |}.

(** What makes a run succeed: every call finds what it needs. *)
Definition run_succeeds (w : world) (d0 d1 d2 d3 : document) : Prop :=
  launch_ok w = true ∧ new_page_ok w = true
  ∧ server w url = Some d0
  ∧ writable w path1 = true
  ∧ select_on w (loc1 Page) "dog" d0 = inr d1
  ∧ writable w path2 = true
  ∧ select_on w (loc2 Page) "b" d1 = inr d2
  ∧ writable w path3 = true
  ∧ select_on w (loc3 Page) "member" d2 = inr d3
  ∧ writable w path4 = true.

(** A file holds a capture of the whole scrollable page. *)
Definition persists_full_page (s : state) (p : string) : Prop :=
  ∃ i, fs s !! p = Some i ∧ img_full_page i = true.

(** A disk on which an earlier run left files at the first and third paths. *)
Definition stale_files : gmap string image :=
  {[ path1 := shot [] ; path3 := shot demo_doc ]}.

(** The calls on the page: navigation, selection, screenshot. *)
Definition is_page_action (a : action) : Prop :=
  match a with
  | AGoto _ | AScreenshot _ _ | ASelectOption _ _ => True
  | ALaunch | ANewPage | AClose => False
  end.

(** The form as served, on a disk where the second path cannot be written. *)
Definition read_only_world : world :=
  {| driver_ok := true; launch_ok := true; new_page_ok := true;
     server := λ u, if bool_decide (u = url) then Some demo_doc else None;
     on_change := λ _ d, d;
     writable := λ p, bool_decide (p = path1) |}.

(** The form with a second example that has no option "b". *)
Definition no_b_doc : document :=
  [ select_elt [("name", "type")] ["cat"; "dog"] "cat";
    select_elt [("aria-label", "kind")] ["a"; "c"] "a";
    select_elt [("name", "type"); ("aria-label", "type")] ["guest"; "member"] "guest" ].

Definition no_b_world : world :=
  {| driver_ok := true; launch_ok := true; new_page_ok := true;
     server := λ u, if bool_decide (u = url) then Some no_b_doc else None;
     on_change := λ _ d, d;
     writable := λ _, true |}.

(** The form with two controls labelled "kind". *)
Definition two_kinds_doc : document :=
  [ select_elt [("name", "type")] ["cat"; "dog"] "cat";
    select_elt [("aria-label", "kind")] ["a"; "b"] "a";
    select_elt [("aria-label", "kind")] ["a"; "b"] "a";
    select_elt [("name", "type"); ("aria-label", "type")] ["guest"; "member"] "guest" ].

Definition two_kinds_world : world :=
  {| driver_ok := true; launch_ok := true; new_page_ok := true;
     server := λ u, if bool_decide (u = url) then Some two_kinds_doc else None;
     on_change := λ _ d, d;
     writable := λ _, true |}.

(** A form in which one control carries both [name="type"] and
    [aria-label="type"]: it is the first match of the first locator and the
    last match of the third. *)
Definition alias_doc : document :=
  [ select_elt [("name", "type"); ("aria-label", "type")]
      ["cat"; "dog"; "member"] "cat";
    select_elt [("aria-label", "kind")] ["a"; "b"] "a" ].

Definition alias_world : world :=
  {| driver_ok := true; launch_ok := true; new_page_ok := true;
     server := λ u, if bool_decide (u = url) then Some alias_doc else None;
     on_change := λ _ d, d;
     writable := λ _, true |}.

(** A disk holding a file that is none of the four screenshots. *)
Definition other_files : gmap string image :=
  {[ "notes.png" := shot [] ]}.

(** A form without any control named "type". *)
Definition no_type_doc : document :=
  [ select_elt [("aria-label", "kind")] ["a"; "b"] "a" ].

Definition no_type_world : world :=
  {| driver_ok := true; launch_ok := true; new_page_ok := true;
     server := λ u, if bool_decide (u = url) then Some no_type_doc else None;
     on_change := λ _ d, d;
     writable := λ _, true |}.

(** A form whose first control lists "dog" as the label of an option whose
    value is "d". *)
Definition label_doc : document :=
  [ {| tag := "select"; attrs := [("name", "type")];
       options := [ {| opt_value := "c"; opt_label := "cat" |};
                    {| opt_value := "d"; opt_label := "dog" |} ];
       value := "c" |};
    select_elt [("aria-label", "kind")] ["a"; "b"] "a";
    select_elt [("name", "type"); ("aria-label", "type")] ["guest"; "member"] "guest" ].

Definition label_world : world :=
  {| driver_ok := true; launch_ok := true; new_page_ok := true;
     server := λ u, if bool_decide (u = url) then Some label_doc else None;
     on_change := λ _ d, d;
     writable := λ _, true |}.

(** A form with two controls labelled "type", the second of them followed
    by a control with another label. *)
Definition two_types_doc : document :=
  [ select_elt [("name", "type")] ["cat"; "dog"] "cat";
    select_elt [("aria-label", "type")] ["guest"; "member"] "guest";
    select_elt [("aria-label", "kind")] ["a"; "b"] "a";
    select_elt [("aria-label", "type")] ["guest"; "member"] "guest";
    select_elt [("aria-label", "size")] ["s"; "m"] "s" ].

(** * Properties *)

(** ** The monad and the list view of the script *)

Lemma run_perform_all w s : run w Playwright s = perform_all w script s.
Proof.
  unfold run, script, perform_all, perform, mbind, M_bind, mret, M_ret.
  destruct (launch w Playwright s) as [s1 [e|[]]]; [done|].
  destruct (new_page w Browser s1) as [s2 [e|[]]]; [done|].
  repeat match goal with
         | |- context [match ?m ?st with _ => _ end] =>
             lazymatch st with
             | context [match _ with _ => _ end] => fail
             | _ => destruct (m st) as [? [?|[]]]; [done|]
             end
         end.
  done.
Qed.

Ltac unfold_api :=
  unfold perform, launch, new_page, goto, screenshot, select_option, close,
    require_page, sync_playwright_enter, sync_playwright_exit,
    mbind, M_bind, mret, M_ret, raise, modify, gets in *.

Ltac api_cases :=
  unfold_api; repeat case_match; simplify_eq/=.

Section Steps.
Variable w : world.

(** Each call in one equation: what it checks, what it raises, and the
    state it leaves. *)
Lemma perform_eq a s :
  perform w a s =
    match a with
    | ALaunch =>
        if driver_running s then
          if launch_ok w then (set_browser true (log a s), inr ())
          else (log a s, inl LaunchError)
        else (log a s, inl DriverError)
    | ANewPage =>
        if browser_open s then
          if new_page_ok w then (set_page true [] (log a s), inr ())
          else (log a s, inl PageError)
        else (log a s, inl TargetClosed)
    | AGoto u =>
        if page_open s then
          match server w u with
          | Some d => (set_page true d (log a s), inr ())
          | None => (log a s, inl NavigationError)
          end
        else (log a s, inl TargetClosed)
    | AScreenshot p fp =>
        if page_open s then
          if writable w p
          then (write_file p {| img_dom := dom s;
                                img_full_page := default false fp |} (log a s),
                inr ())
          else (log a s, inl ScreenshotError)
        else (log a s, inl TargetClosed)
    | ASelectOption l v =>
        if page_open s then
          match select_on w l v (dom s) with
          | inl e => (log a s, inl e)
          | inr d' => (set_page true d' (log a s), inr ())
          end
        else (log a s, inl TargetClosed)
    | AClose => (set_page false (dom s) (set_browser false (log a s)), inr ())
    end.
Proof.
  destruct a; unfold_api; cbn [page_open browser_open dom log negb];
    repeat (case_match; simpl in * ); simplify_eq; simpl in *; congruence.
Qed.

(** Every call is logged once, when it is issued, whether or not it succeeds. *)
Lemma perform_trace a s s' r :
  perform w a s = (s', r) → trace s' = trace s ++ [a].
Proof. intros; destruct a; api_cases; done. Qed.

(** Only a screenshot that succeeds touches the disk. *)
Lemma perform_fs_ok a s s' :
  perform w a s = (s', inr ()) →
  fs s' = match a with
          | AScreenshot p fp =>
              <[p := {| img_dom := dom s; img_full_page := default false fp |}]> (fs s)
          | _ => fs s
          end.
Proof. intros; destruct a; api_cases; done. Qed.

Lemma perform_fs_err a s s' e :
  perform w a s = (s', inl e) → fs s' = fs s.
Proof. intros; destruct a; api_cases; done. Qed.

Lemma perform_driver a s s' r :
  perform w a s = (s', r) → driver_running s' = driver_running s.
Proof. intros; destruct a; api_cases; done. Qed.

(** Only [launch] and [close] change whether the browser is open. *)
Lemma perform_browser a s s' r :
  perform w a s = (s', r) → a ≠ ALaunch → a ≠ AClose →
  browser_open s' = browser_open s.
Proof. intros; destruct a; api_cases; done. Qed.

Lemma perform_all_cons a l s :
  perform_all w (a :: l) s =
    match perform w a s with
    | (s', inl e) => (s', inl e)
    | (s', inr _) => perform_all w l s'
    end.
Proof. done. Qed.

Lemma perform_all_app l1 l2 s :
  perform_all w (l1 ++ l2) s =
    match perform_all w l1 s with
    | (s', inl e) => (s', inl e)
    | (s', inr _) => perform_all w l2 s'
    end.
Proof.
  revert s. induction l1 as [|a l1 IH]; intros s; [done|].
  rewrite <- app_comm_cons, !perform_all_cons.
  destruct (perform w a s) as [s1 [e|[]]]; [done|]. apply IH.
Qed.

(** A run of a list of calls that ends normally has issued all of them. *)
Lemma perform_all_trace_ok l s s' :
  perform_all w l s = (s', inr ()) → trace s' = trace s ++ l.
Proof.
  revert s. induction l as [|a l IH]; intros s.
  - intros [= <-]. by rewrite app_nil_r.
  - rewrite perform_all_cons.
    destruct (perform w a s) as [s1 [e|[]]] eqn:Ha; [done|].
    intros Hl. rewrite (IH _ Hl), (perform_trace _ _ _ _ Ha).
    by rewrite <- app_assoc.
Qed.

(** A run that raises splits into a prefix that went through and the one
    call that raised; nothing after that call was issued. *)
Lemma perform_all_err l s s' e :
  perform_all w l s = (s', inl e) →
  ∃ k a sk,
    l !! k = Some a
    ∧ perform_all w (take k l) s = (sk, inr ())
    ∧ perform w a sk = (s', inl e)
    ∧ trace s' = trace s ++ take (S k) l.
Proof.
  revert s. induction l as [|a l IH]; intros s; [done|].
  rewrite perform_all_cons.
  destruct (perform w a s) as [s1 [e1|[]]] eqn:Ha.
  - intros [= -> ->]. exists 0, a, s. repeat split; [done|].
    by rewrite (perform_trace _ _ _ _ Ha).
  - intros Hl. destruct (IH _ Hl) as (k & b & sk & Hk & Hpre & Hb & Htr).
    exists (S k), b, sk. repeat split; [done| |done|].
    + by rewrite firstn_cons, perform_all_cons, Ha.
    + rewrite Htr, (perform_trace _ _ _ _ Ha), <- app_assoc. done.
Qed.

(** A path that no screenshot of the list names is left as it was. *)
Lemma perform_all_fs_frame l s s' r p :
  perform_all w l s = (s', r) →
  (∀ fp, AScreenshot p fp ∉ l) →
  fs s' !! p = fs s !! p.
Proof.
  revert s. induction l as [|a l IH]; intros s.
  - by intros [= <- <-].
  - rewrite perform_all_cons. intros Hrun Hp.
    destruct (perform w a s) as [s1 [e1|[]]] eqn:Ha.
    + injection Hrun as <- <-. by rewrite (perform_fs_err _ _ _ _ Ha).
    + rewrite (IH s1 Hrun); [|intros fp Hin; apply (Hp fp); by right].
      rewrite (perform_fs_ok _ _ _ Ha). destruct a; try done.
      apply lookup_insert_ne. intros ->. apply (Hp full_page). by left.
Qed.

Lemma perform_all_driver l s s' r :
  perform_all w l s = (s', r) → driver_running s' = driver_running s.
Proof.
  revert s. induction l as [|a l IH]; intros s.
  - by intros [= <- <-].
  - rewrite perform_all_cons.
    destruct (perform w a s) as [s1 [e1|[]]] eqn:Ha.
    + intros [= <- <-]. by apply perform_driver in Ha.
    + intros Hl. rewrite (IH _ Hl). by apply perform_driver in Ha.
Qed.

(** The [with] block around [run]. *)
Lemma invoke_started files :
  driver_ok w = true →
  invoke w files =
    (set_driver false (perform_all w script (started files)).1,
     (perform_all w script (started files)).2).
Proof.
  intros Hd. unfold invoke, main, with_, sync_playwright_enter.
  rewrite Hd. unfold started, sync_playwright_exit, mbind, M_bind, modify, mret, M_ret.
  cbn -[run perform_all]. rewrite run_perform_all.
  by destruct (perform_all w script (set_driver true (init files))) as [s2 res].
Qed.

Lemma invoke_no_driver files :
  driver_ok w = false → invoke w files = (init files, inl DriverError).
Proof.
  intros Hd. unfold invoke, main, with_, sync_playwright_enter.
  by rewrite Hd.
Qed.
End Steps.

(** ** The scenario of a successful run *)

Lemma script_scenario : script = ALaunch :: ANewPage :: scenario.
Proof. reflexivity. Qed.

Lemma invoke_ok_inv w files :
  exit_status (invoke w files).2 = 0 →
  driver_ok w = true
  ∧ ∃ s, perform_all w script (started files) = (s, inr ())
         ∧ invoke w files = (set_driver false s, inr ()).
Proof.
  intros Hx. destruct (driver_ok w) eqn:Hd.
  - split; [done|]. rewrite invoke_started in Hx |- * by done.
    destruct (perform_all w script (started files)) as [s [e|[]]]; [done|].
    by exists s.
  - by rewrite invoke_no_driver in Hx.
Qed.

(** C1, refuted as stated: on the demo form the run succeeds, and the calls
    it issued are not the listed sequence alone (the browser launch and the
    opening of the page come first). *)
Lemma C1_listed_sequence_is_not_all :
  exit_status (invoke demo_world ∅).2 = 0
  ∧ trace (invoke demo_world ∅).1 ≠ scenario.
Proof. vm_compute. split; [reflexivity | discriminate]. Qed.

(** C1, amended: a successful run launches the browser, opens a page, and
    then issues exactly the listed sequence, in that order and nothing else:
    navigate, screenshot 01, select "dog" on the first [name="type"] control,
    screenshot 02, select "b" on the [aria-label="kind"] control, screenshot
    03, select "member" on the last [aria-label="type"] control, screenshot
    04, close the browser; the exit status is 0 and the driver is stopped. *)
Theorem C1_successful_run w files :
  exit_status (invoke w files).2 = 0 →
  trace (invoke w files).1 = ALaunch :: ANewPage :: scenario
  ∧ (invoke w files).2 = inr ()
  ∧ browser_open (invoke w files).1 = false
  ∧ driver_running (invoke w files).1 = false.
Proof.
  intros Hx. destruct (invoke_ok_inv _ _ Hx) as (Hd & s & Hs & ->). simpl.
  pose proof (perform_all_trace_ok _ _ _ _ Hs) as Htr. simpl in Htr.
  split; [done|]. split; [done|]. split; [|done].
  rewrite <- (take_drop 10 script), perform_all_app in Hs.
  destruct (perform_all w (take 10 script) (started files)) as [s9 [e|[]]]; [done|].
  unfold script in Hs; simpl in Hs. by api_cases.
Qed.

Lemma C1_successful_run_witness :
  trace (invoke demo_world ∅).1 = ALaunch :: ANewPage :: scenario
  ∧ (invoke demo_world ∅).2 = inr ()
  ∧ browser_open (invoke demo_world ∅).1 = false
  ∧ driver_running (invoke demo_world ∅).1 = false.
Proof. apply (C1_successful_run demo_world ∅). vm_compute. reflexivity. Defined.

(** Symbolic execution of the script, one call at a time.  Only the record
    fields and the list of issued calls are computed; paths and maps stay
    folded. *)
Ltac st_simpl :=
  cbn [driver_running browser_open page_open dom fs trace init started
       set_driver set_browser set_page write_file log app negb fst snd
       default from_option].

Ltac st_simpl_in H :=
  cbn [driver_running browser_open page_open dom fs trace init started
       set_driver set_browser set_page write_file log app negb fst snd
       default from_option] in H.

Ltac step_in H :=
  rewrite perform_all_cons, perform_eq in H; st_simpl_in H;
  repeat lazymatch type of H with
    | context [if ?b then _ else _] =>
        destruct b eqn:?; st_simpl_in H; try discriminate H
    | context [match server ?w ?u with _ => _ end] =>
        destruct (server w u) eqn:?; st_simpl_in H; try discriminate H
    | context [match select_on ?w ?l ?v ?d with _ => _ end] =>
        destruct (select_on w l v d) eqn:?; st_simpl_in H; try discriminate H
    end.

(** A successful run, unfolded: the conditions it met and the state it left. *)
Lemma run_ok_inv w files s :
  perform_all w script (started files) = (s, inr ()) →
  ∃ d0 d1 d2 d3, run_succeeds w d0 d1 d2 d3 ∧ s = final_state files d0 d1 d2 d3.
Proof.
  unfold script. intros H. do 11 step_in H.
  injection H as <-. eexists _, _, _, _. split; [by repeat split|].
  reflexivity.
Qed.

Lemma run_ok_intro w files d0 d1 d2 d3 :
  run_succeeds w d0 d1 d2 d3 →
  perform_all w script (started files) = (final_state files d0 d1 d2 d3, inr ()).
Proof.
  intros (Hl & Hn & Hs & Hw1 & H1 & Hw2 & H2 & Hw3 & H3 & Hw4).
  unfold script.
  do 11 (rewrite perform_all_cons, perform_eq; st_simpl;
         rewrite ?Hl, ?Hn, ?Hs, ?Hw1, ?H1, ?Hw2, ?H2, ?Hw3, ?H3, ?Hw4).
  reflexivity.
Qed.

Ltac step :=
  rewrite perform_all_cons, perform_eq; st_simpl.

Ltac elem_cases H :=
  repeat (apply elem_of_cons in H as [H|H]; [try discriminate H|]);
  try (by apply elem_of_nil in H).

(** ** Failures *)

(** C3: when the address cannot be loaded the script ends with an error
    (exit status 1), the files on disk are what they were, and no screenshot
    call was issued; when the browser and the page could be set up, the error
    is the navigation error, raised by the third call, [goto], which comes
    before every screenshot. *)
Theorem C3_navigation_failure w files :
  server w url = None →
  exit_status (invoke w files).2 = 1
  ∧ fs (invoke w files).1 = files
  ∧ (∀ p fp, AScreenshot p fp ∉ trace (invoke w files).1)
  ∧ (driver_ok w = true → launch_ok w = true → new_page_ok w = true →
     (invoke w files).2 = inl NavigationError
     ∧ trace (invoke w files).1 = [ALaunch; ANewPage; AGoto url]).
Proof.
  intros Hs. destruct (driver_ok w) eqn:Hd.
  - rewrite invoke_started by done. unfold script.
    step. destruct (launch_ok w).
    + step. destruct (new_page_ok w).
      * step. rewrite Hs. st_simpl.
        repeat split; try done. intros p fp H. elem_cases H.
      * repeat split; try done. intros p fp H. elem_cases H.
    + repeat split; try done. intros p fp H. elem_cases H.
  - rewrite invoke_no_driver by done.
    repeat split; try done. intros p fp H. elem_cases H.
Qed.

Lemma C3_navigation_failure_witness :
  exit_status (invoke unreachable_world ∅).2 = 1
  ∧ fs (invoke unreachable_world ∅).1 = ∅
  ∧ (invoke unreachable_world ∅).2 = inl NavigationError
  ∧ trace (invoke unreachable_world ∅).1 = [ALaunch; ANewPage; AGoto url].
Proof.
  destruct (C3_navigation_failure unreachable_world ∅ eq_refl)
    as (Hx & Hfs & _ & Hnav).
  destruct (Hnav eq_refl eq_refl eq_refl) as [He Htr].
  repeat split; assumption.
Defined.

(** ** The files written *)

Lemma paths_distinct : NoDup paths.
Proof. apply (bool_decide_unpack _). vm_compute. exact I. Qed.

Ltac paths_neq := apply (bool_decide_unpack _); vm_compute; exact I.

(** What the four files hold after a successful run. *)
Lemma final_fs_lookup files d0 d1 d2 d3 :
  fs (final_state files d0 d1 d2 d3) !! path1 = Some (shot d0)
  ∧ fs (final_state files d0 d1 d2 d3) !! path2 = Some (shot d1)
  ∧ fs (final_state files d0 d1 d2 d3) !! path3 = Some (shot d2)
  ∧ fs (final_state files d0 d1 d2 d3) !! path4 = Some (shot d3).
Proof.
  unfold final_state. cbn [fs].
  repeat split;
    repeat first [ apply lookup_insert_eq
                 | rewrite lookup_insert_ne by paths_neq ].
Qed.

(** C5, refuted as stated: on the demo form the run succeeds and the first
    screenshot file does not hold a capture of the whole page. *)
Lemma C5_first_screenshot_is_viewport :
  exit_status (invoke demo_world ∅).2 = 0
  ∧ ¬ persists_full_page (invoke demo_world ∅).1 path1.
Proof.
  split; [by vm_compute|]. intros (i & Hi & Hfull).
  destruct (invoke_ok_inv demo_world ∅) as (_ & s & Hs & Hinv); [by vm_compute|].
  destruct (run_ok_inv _ _ _ Hs) as (d0 & d1 & d2 & d3 & _ & ->).
  rewrite Hinv in Hi. cbn [fst set_driver fs] in Hi.
  destruct (final_fs_lookup ∅ d0 d1 d2 d3) as (H1 & _).
  rewrite H1 in Hi. injection Hi as <-. discriminate Hfull.
Qed.

(** C5, amended: every screenshot call of the script passes the path alone,
    so each takes the API's default capture, the viewport; after a successful
    run each of the four literal paths holds such a capture of the document
    as it stood when the call was made. *)
Theorem C5_screenshots_default_capture w files :
  exit_status (invoke w files).2 = 0 →
  (∀ p fp, AScreenshot p fp ∈ script → fp = None ∧ p ∈ paths)
  ∧ (∀ p, p ∈ paths →
       ∃ d, fs (invoke w files).1 !! p = Some {| img_dom := d; img_full_page := false |}).
Proof.
  intros Hx. split.
  - intros p fp H. unfold script in H. elem_cases H; simplify_eq; split; try done;
      unfold paths; set_solver.
  - destruct (invoke_ok_inv _ _ Hx) as (_ & s & Hs & ->).
    destruct (run_ok_inv _ _ _ Hs) as (d0 & d1 & d2 & d3 & _ & ->).
    cbn [fst set_driver fs].
    destruct (final_fs_lookup files d0 d1 d2 d3) as (H1 & H2 & H3 & H4).
    intros p Hp. unfold paths in Hp. elem_cases Hp; subst; eauto.
Qed.

Lemma C5_screenshots_default_capture_witness :
  (∃ d, fs (invoke demo_world ∅).1 !! path1
        = Some {| img_dom := d; img_full_page := false |})
  ∧ (∃ d, fs (invoke demo_world ∅).1 !! path4
          = Some {| img_dom := d; img_full_page := false |}).
Proof.
  destruct (C5_screenshots_default_capture demo_world ∅) as [_ H];
    [by vm_compute|].
  split; apply H; unfold paths; repeat constructor.
Defined.

(** ** Failing runs in general *)

Section Failures.
Variable w : world.

(** A run in which the call at position [k] raises, the calls before it
    having gone through: the exception leaves [run] and the [with] block
    unchanged; only the driver is stopped on the way out. *)
Lemma invoke_fail files k a sk s' e :
  driver_ok w = true →
  script !! k = Some a →
  perform_all w (take k script) (started files) = (sk, inr ()) →
  perform w a sk = (s', inl e) →
  invoke w files = (set_driver false s', inl e).
Proof.
  intros Hd Hk Hpre Ha. rewrite invoke_started by done.
  rewrite <- (take_drop_middle script k a Hk) at 1 2.
  by rewrite perform_all_app, Hpre, perform_all_cons, Ha.
Qed.

(** Conversely every failing invocation with a running driver is of that
    form. *)
Lemma invoke_err_inv files e :
  driver_ok w = true →
  (invoke w files).2 = inl e →
  ∃ k a sk s',
    script !! k = Some a
    ∧ perform_all w (take k script) (started files) = (sk, inr ())
    ∧ perform w a sk = (s', inl e)
    ∧ trace s' = take (S k) script
    ∧ invoke w files = (set_driver false s', inl e).
Proof.
  intros Hd. rewrite invoke_started by done. cbn [snd].
  destruct (perform_all w script (started files)) as [s' r] eqn:Hrun.
  cbn [fst snd]. intros ->.
  destruct (perform_all_err _ _ _ _ _ Hrun) as (k & a & sk & Hk & Hpre & Ha & Htr).
  exists k, a, sk, s'. by repeat split.
Qed.

(** The calls issued by any invocation are an initial segment of the script. *)
Lemma invoke_trace_prefix files :
  trace (invoke w files).1 `prefix_of` script.
Proof.
  destruct (driver_ok w) eqn:Hd.
  - destruct (invoke w files).2 as [e|[]] eqn:Hr.
    + destruct (invoke_err_inv _ _ Hd Hr) as (k & a & sk & s' & _ & _ & _ & Htr & ->).
      cbn [fst set_driver trace]. rewrite Htr. apply prefix_take.
    + destruct (invoke_ok_inv w files) as (_ & s & Hs & ->); [by rewrite Hr|].
      cbn [fst set_driver trace].
      by rewrite (perform_all_trace_ok _ _ _ _ Hs).
  - rewrite invoke_no_driver by done. apply prefix_nil.
Qed.

Lemma invoke_ok_trace files :
  exit_status (invoke w files).2 = 0 → trace (invoke w files).1 = script.
Proof.
  intros Hx. destruct (invoke_ok_inv _ _ Hx) as (_ & s & Hs & ->).
  cbn [fst set_driver trace]. by rewrite (perform_all_trace_ok _ _ _ _ Hs).
Qed.

Lemma invoke_driver_stopped files :
  driver_running (invoke w files).1 = false.
Proof.
  destruct (driver_ok w) eqn:Hd.
  - by rewrite invoke_started.
  - by rewrite invoke_no_driver.
Qed.
End Failures.

(** ** Repeated and compared invocations *)

(** Writing the four files again over themselves changes nothing. *)
Lemma final_fs_idem files d0 d1 d2 d3 :
  fs (final_state (fs (final_state files d0 d1 d2 d3)) d0 d1 d2 d3)
  = fs (final_state files d0 d1 d2 d3).
Proof.
  unfold final_state. cbn [fs]. apply map_eq. intros k.
  rewrite !lookup_insert. by repeat case_decide.
Qed.

(** A world in which every call finds what it needs lets the script succeed
    on any disk. *)
Lemma world_ok_exit w files :
  (driver_ok w = true ∧ ∃ d0 d1 d2 d3, run_succeeds w d0 d1 d2 d3) →
  exit_status (invoke w files).2 = 0.
Proof.
  intros (Hd & d0 & d1 & d2 & d3 & Hok).
  by rewrite (invoke_started w files Hd), (run_ok_intro w files _ _ _ _ Hok).
Qed.

Lemma demo_world_ok :
  driver_ok demo_world = true ∧ ∃ d0 d1 d2 d3, run_succeeds demo_world d0 d1 d2 d3.
Proof.
  split; [done|]. eexists demo_doc, _, _, _.
  repeat split; try reflexivity; vm_compute; reflexivity.
Qed.

Lemma alias_world_ok :
  driver_ok alias_world = true ∧ ∃ d0 d1 d2 d3, run_succeeds alias_world d0 d1 d2 d3.
Proof.
  split; [done|]. eexists alias_doc, _, _, _.
  repeat split; try reflexivity; vm_compute; reflexivity.
Qed.

(** C7: when a first invocation succeeds, a second one started on the files
    the first one left succeeds too in the same world, and leaves the disk
    exactly as the first invocation left it (the effect on the disk is
    idempotent).  It does so by writing the four fixed paths again, over the
    files that are there: in whatever world the second invocation succeeds,
    each of the four paths holds afterwards the capture taken by that second
    invocation, not the file the first one left. *)
Theorem C7_second_run_overwrites w files :
  exit_status (invoke w files).2 = 0 →
  exit_status (invoke w (fs (invoke w files).1)).2 = 0
  ∧ fs (invoke w (fs (invoke w files).1)).1 = fs (invoke w files).1
  ∧ (∀ p, p ∈ paths →
       is_Some (fs (invoke w files).1 !! p)
       ∧ AScreenshot p None ∈ trace (invoke w (fs (invoke w files).1)).1)
  ∧ (∀ w', exit_status (invoke w' (fs (invoke w files).1)).2 = 0 →
       ∃ d0 d1 d2 d3,
         run_succeeds w' d0 d1 d2 d3
         ∧ fs (invoke w' (fs (invoke w files).1)).1 !! path1 = Some (shot d0)
         ∧ fs (invoke w' (fs (invoke w files).1)).1 !! path2 = Some (shot d1)
         ∧ fs (invoke w' (fs (invoke w files).1)).1 !! path3 = Some (shot d2)
         ∧ fs (invoke w' (fs (invoke w files).1)).1 !! path4 = Some (shot d3)).
Proof.
  intros Hx. destruct (invoke_ok_inv _ _ Hx) as (Hd & s & Hs & ->).
  destruct (run_ok_inv _ _ _ Hs) as (d0 & d1 & d2 & d3 & Hok & ->).
  cbn [fst set_driver fs].
  pose proof (run_ok_intro w (fs (final_state files d0 d1 d2 d3)) _ _ _ _ Hok)
    as Hs2.
  rewrite (invoke_started w _ Hd), Hs2. cbn [fst snd set_driver fs trace].
  split; [done|]. split; [apply final_fs_idem|].
  destruct (final_fs_lookup files d0 d1 d2 d3) as (H1 & H2 & H3 & H4).
  split.
  - intros p Hp. unfold paths in Hp.
    elem_cases Hp; subst; (split; [eauto|]); unfold final_state, script;
      cbn [trace]; set_solver.
  - intros w' Hx'. destruct (invoke_ok_inv _ _ Hx') as (_ & s' & Hs' & ->).
    destruct (run_ok_inv _ _ _ Hs') as (e0 & e1 & e2 & e3 & Hok' & ->).
    exists e0, e1, e2, e3. split; [done|]. cbn [fst set_driver].
    apply final_fs_lookup.
Qed.

Lemma C7_second_run_overwrites_witness :
  exit_status (invoke demo_world (fs (invoke demo_world stale_files).1)).2 = 0
  ∧ fs (invoke demo_world (fs (invoke demo_world stale_files).1)).1
    = fs (invoke demo_world stale_files).1
  ∧ fs (invoke alias_world (fs (invoke demo_world stale_files).1)).1 !! path1
    = Some (shot alias_doc).
Proof.
  destruct (C7_second_run_overwrites demo_world stale_files)
    as (H1 & H2 & _ & Hover); [apply world_ok_exit, demo_world_ok|].
  split; [exact H1|]. split; [exact H2|].
  destruct (Hover alias_world) as (d0 & d1 & d2 & d3 & Hok & Hp1 & _);
    [apply world_ok_exit, alias_world_ok|].
  destruct Hok as (_ & _ & Hsrv & _).
  injection Hsrv as <-. exact Hp1.
Defined.

(** C8, refuted as stated: two invocations, one against the served form and
    one with nothing listening at the address, do not issue the same
    sequence of calls. *)
Lemma C8_invocations_differ :
  trace (invoke demo_world ∅).1 ≠ trace (invoke unreachable_world ∅).1.
Proof. vm_compute. discriminate. Qed.

(** C8, amended: the script reads no argument, flag, variable or file, and
    every address, selector, option value and path it passes is a literal;
    so the calls issued by any invocation are an initial segment of one
    fixed sequence, any two invocations agree on every call both of them
    issue, and two invocations that both succeed issue the same sequence. *)
Theorem C8_calls_are_fixed w1 w2 files1 files2 :
  trace (invoke w1 files1).1 `prefix_of` script
  ∧ trace (invoke w2 files2).1 `prefix_of` script
  ∧ (trace (invoke w1 files1).1 `prefix_of` trace (invoke w2 files2).1
     ∨ trace (invoke w2 files2).1 `prefix_of` trace (invoke w1 files1).1)
  ∧ (exit_status (invoke w1 files1).2 = 0 →
     exit_status (invoke w2 files2).2 = 0 →
     trace (invoke w1 files1).1 = trace (invoke w2 files2).1).
Proof.
  pose proof (invoke_trace_prefix w1 files1) as H1.
  pose proof (invoke_trace_prefix w2 files2) as H2.
  repeat split; try done.
  - by apply (prefix_weak_total _ _ script).
  - intros Hx1 Hx2. by rewrite !invoke_ok_trace.
Qed.

Lemma C8_calls_are_fixed_witness :
  trace (invoke demo_world ∅).1 = trace (invoke demo_world stale_files).1.
Proof.
  destruct (C8_calls_are_fixed demo_world demo_world ∅ stale_files)
    as (_ & _ & _ & H).
  apply H; by vm_compute.
Defined.

(** ** What a failure leaves behind *)

Section Cleanup.
Variable w : world.

(** Calls other than [launch] and [close] leave the browser as it is. *)
Lemma perform_all_browser l s s' r :
  perform_all w l s = (s', r) →
  ALaunch ∉ l → AClose ∉ l →
  browser_open s' = browser_open s.
Proof.
  revert s. induction l as [|a l IH]; intros s.
  - by intros [= <- <-].
  - rewrite perform_all_cons. intros Hrun Hl Hc.
    assert (a ≠ ALaunch) by (intros ->; apply Hl; by left).
    assert (a ≠ AClose) by (intros ->; apply Hc; by left).
    destruct (perform w a s) as [s1 [e1|[]]] eqn:Ha.
    + injection Hrun as <- <-. by apply (perform_browser _ _ _ _ _ Ha).
    + rewrite (IH s1 Hrun).
      * by apply (perform_browser _ _ _ _ _ Ha).
      * intros Hin. apply Hl. by right.
      * intros Hin. apply Hc. by right.
Qed.

(** [close] never raises, so a failing run stopped before it. *)
Lemma fail_before_close k a sk s' e :
  script !! k = Some a → perform w a sk = (s', inl e) → k < 10.
Proof.
  intros Hk Ha. pose proof (lookup_lt_Some _ _ _ Hk) as Hlen.
  destruct (decide (k = 10)) as [->|]; [|simpl in Hlen; lia].
  injection Hk as <-. by rewrite perform_eq in Ha.
Qed.

Lemma close_not_in_take k : k ≤ 10 → AClose ∉ take k script.
Proof.
  intros Hk Hin. apply list_elem_of_lookup in Hin as [i Hi].
  apply lookup_take_Some in Hi as [Hi Hlt].
  do 10 (destruct i as [|i]; [discriminate Hi|]). lia.
Qed.

(** Once [launch] has gone through, the browser stays open up to [close]. *)
Lemma browser_open_before_close files k sk :
  1 ≤ k ≤ 10 →
  perform_all w (take k script) (started files) = (sk, inr ()) →
  browser_open sk = true.
Proof.
  intros Hk Hpre.
  assert (take k script = ALaunch :: take (k - 1) (drop 1 script)) as Heq.
  { destruct k as [|k]; [lia|]. cbn [take drop script].
    by replace (S k - 1) with k by lia. }
  rewrite Heq, perform_all_cons, perform_eq in Hpre.
  destruct (launch_ok w); [|done].
  apply perform_all_browser in Hpre; [by rewrite Hpre| |].
  - intros Hin. apply list_elem_of_lookup in Hin as [i Hi].
    apply lookup_take_Some in Hi as [Hi _].
    do 10 (destruct i as [|i]; [discriminate Hi|]). discriminate Hi.
  - intros Hin. apply list_elem_of_lookup in Hin as [i Hi].
    apply lookup_take_Some in Hi as [Hi Hlt].
    do 9 (destruct i as [|i]; [discriminate Hi|]). lia.
Qed.
End Cleanup.

(** C10: the driver is acquired by the [with] statement and released by it
    on every path.  When the driver can start, entering the block starts it,
    it is running when [run] begins and still running when [run] returns or
    raises, leaving the block stops it, and the result of the script is the
    result of [run], exception included; when it cannot start there is
    nothing to release.  In every case the driver is not running when the
    script ends.  On the failing paths [close] is never issued, and a
    browser that was launched is still open when the exception leaves the
    script. *)
Theorem C10_driver_released w files :
  driver_running (invoke w files).1 = false
  ∧ (driver_ok w = true →
       sync_playwright_enter w (init files) = (started files, inr Playwright)
       ∧ driver_running (started files) = true
       ∧ ∃ s r,
           run w Playwright (started files) = (s, r)
           ∧ driver_running s = true
           ∧ sync_playwright_exit s = (set_driver false s, inr ())
           ∧ invoke w files = (set_driver false s, r))
  ∧ (driver_ok w = false → invoke w files = (init files, inl DriverError))
  ∧ (∀ e, (invoke w files).2 = inl e →
       (AClose ∉ trace (invoke w files).1)
       ∧ (driver_ok w = true → launch_ok w = true →
          browser_open (invoke w files).1 = true)).
Proof.
  split; [apply invoke_driver_stopped|].
  split.
  { intros Hd. split; [unfold sync_playwright_enter; by rewrite Hd|].
    split; [done|].
    destruct (run w Playwright (started files)) as [s r] eqn:Hrun.
    exists s, r. split; [done|].
    rewrite run_perform_all in Hrun. split.
    - by rewrite (perform_all_driver _ _ _ _ _ Hrun).
    - split; [done|]. by rewrite (invoke_started w files Hd), Hrun. }
  split; [apply invoke_no_driver|].
  intros e He. destruct (driver_ok w) eqn:Hd.
  - destruct (invoke_err_inv _ _ _ Hd He)
      as (k & a & sk & s' & Hk & Hpre & Ha & Htr & ->).
    cbn [fst set_driver trace browser_open].
    pose proof (fail_before_close _ _ _ _ _ _ Hk Ha) as Hlt.
    split.
    + rewrite Htr. apply close_not_in_take. lia.
    + intros _ Hl. destruct (decide (k = 0)) as [->|Hk0].
      * injection Hk as <-. injection Hpre as <-.
        rewrite perform_eq, Hl in Ha. discriminate Ha.
      * rewrite (perform_browser _ _ _ _ _ Ha).
        -- apply (browser_open_before_close w files k); [lia|done].
        -- intros ->. destruct k as [|k]; [done|].
           do 10 (destruct k as [|k]; [discriminate Hk|]). discriminate Hk.
        -- intros ->.
           do 10 (destruct k as [|k]; [discriminate Hk|]). lia.
  - rewrite invoke_no_driver by done. cbn [fst init trace].
    split; [by intros Hin; apply elem_of_nil in Hin|done].
Qed.

Lemma C10_driver_released_witness :
  driver_running (invoke unreachable_world ∅).1 = false
  ∧ sync_playwright_enter unreachable_world (init ∅) = (started ∅, inr Playwright)
  ∧ (∃ s r, run unreachable_world Playwright (started ∅) = (s, r)
            ∧ driver_running s = true
            ∧ invoke unreachable_world ∅ = (set_driver false s, r))
  ∧ (AClose ∉ trace (invoke unreachable_world ∅).1)
  ∧ browser_open (invoke unreachable_world ∅).1 = true.
Proof.
  destruct (C10_driver_released unreachable_world ∅) as (H1 & H2 & _ & H3).
  destruct (H2 eq_refl) as (Henter & _ & s & r & Hrun & Hs & _ & Hinv).
  destruct (H3 NavigationError eq_refl) as (H4 & H5).
  split; [exact H1|]. split; [exact Henter|].
  split; [by exists s, r|]. split; [exact H4|]. exact (H5 eq_refl eq_refl).
Defined.

(** No two screenshot calls of the script name the same path. *)
Lemma script_shot_unique i j p fp fp' :
  script !! i = Some (AScreenshot p fp) →
  script !! j = Some (AScreenshot p fp') →
  i = j.
Proof.
  intros Hi Hj.
  do 11 (try (destruct i as [|i]; [try discriminate Hi|]));
    try discriminate Hi; injection Hi as <- <-;
    do 11 (try (destruct j as [|j]; [try discriminate Hj|]));
    try discriminate Hj; try reflexivity;
    injection Hj as Hp _; exfalso; revert Hp;
    apply (bool_decide_unpack (_ ≠ _)); vm_compute; exact I.
Qed.

(** A screenshot that went through is still on disk when a later call of
    the script raises or the run ends. *)
Lemma screenshot_stays w files j k p fp sj sk :
  j < k →
  script !! j = Some (AScreenshot p fp) →
  perform_all w (take j script) (started files) = (sj, inr ()) →
  perform_all w (take k script) (started files) = (sk, inr ()) →
  fs sk !! p = Some {| img_dom := dom sj; img_full_page := default false fp |}.
Proof.
  intros Hjk Hj Hsj Hsk.
  assert (take k script !! j = Some (AScreenshot p fp)) as Hj'
    by (by rewrite lookup_take_lt).
  rewrite <- (take_drop_middle _ _ _ Hj'), take_take in Hsk.
  replace (j `min` k) with j in Hsk by lia.
  rewrite perform_all_app, Hsj, perform_all_cons in Hsk.
  destruct (perform w (AScreenshot p fp) sj) as [sj' [?|[]]] eqn:Hshot; [done|].
  rewrite (perform_all_fs_frame _ _ _ _ _ p Hsk).
  - rewrite (perform_fs_ok _ _ _ _ Hshot). apply lookup_insert_eq.
  - intros fp' Hin. apply list_elem_of_lookup in Hin as [i Hi].
    rewrite lookup_drop in Hi. apply lookup_take_Some in Hi as [Hi _].
    pose proof (script_shot_unique _ _ _ _ _ Hj Hi). lia.
Qed.

(** C4: when a call on the page (navigation, the resolution of a selector,
    the selection of an option, a screenshot) raises, nothing catches the
    error: it is the result of the script, no later call is issued, [close]
    in particular is not and the browser is still open, and every screenshot
    taken before is on disk as it was written. *)
Theorem C4_failure_is_not_handled w files k a sk s' e :
  driver_ok w = true →
  script !! k = Some a →
  is_page_action a →
  perform_all w (take k script) (started files) = (sk, inr ()) →
  perform w a sk = (s', inl e) →
  (invoke w files).2 = inl e
  ∧ exit_status (invoke w files).2 = 1
  ∧ trace (invoke w files).1 = take (S k) script
  ∧ (AClose ∉ trace (invoke w files).1)
  ∧ browser_open (invoke w files).1 = true
  ∧ fs (invoke w files).1 = fs sk
  ∧ (∀ j p fp sj,
       j < k →
       script !! j = Some (AScreenshot p fp) →
       perform_all w (take j script) (started files) = (sj, inr ()) →
       fs (invoke w files).1 !! p
       = Some {| img_dom := dom sj; img_full_page := default false fp |}).
Proof.
  intros Hd Hk Hpage Hpre Ha.
  rewrite (invoke_fail w files k a sk s' e Hd Hk Hpre Ha).
  cbn [fst snd set_driver trace browser_open fs exit_status].
  pose proof (fail_before_close _ _ _ _ _ _ Hk Ha) as Hlt.
  assert (trace s' = take (S k) script) as Htr.
  { rewrite (perform_trace _ _ _ _ _ Ha), (perform_all_trace_ok _ _ _ _ Hpre).
    cbn [started init set_driver trace app]. by rewrite (take_S_r _ _ _ Hk). }
  assert (1 ≤ k) as Hk1.
  { destruct k as [|k]; [|lia]. by injection Hk as <-. }
  repeat split; try done.
  - rewrite Htr. apply close_not_in_take. lia.
  - rewrite (perform_browser _ _ _ _ _ Ha).
    + apply (browser_open_before_close w files k); [lia|done].
    + by intros ->.
    + by intros ->.
  - by apply (perform_fs_err _ _ _ _ _ Ha).
  - intros j p fp sj Hj Hshot Hsj.
    rewrite (perform_fs_err _ _ _ _ _ Ha).
    by apply (screenshot_stays w files j k).
Qed.

Lemma C4_failure_is_not_handled_witness :
  (invoke read_only_world ∅).2 = inl ScreenshotError
  ∧ trace (invoke read_only_world ∅).1 = take 6 script
  ∧ browser_open (invoke read_only_world ∅).1 = true
  ∧ fs (invoke read_only_world ∅).1 !! path1 = Some (shot demo_doc).
Proof.
  pose (sk := (perform_all read_only_world (take 5 script) (started ∅)).1).
  pose (sj := (perform_all read_only_world (take 3 script) (started ∅)).1).
  destruct (C4_failure_is_not_handled read_only_world ∅ 5
              (AScreenshot path2 None) sk
              (perform read_only_world (AScreenshot path2 None) sk).1
              ScreenshotError)
    as (He & _ & Htr & _ & Hb & _ & Hfs);
    [reflexivity | reflexivity | exact I | by vm_compute | by vm_compute |].
  split; [exact He|]. split; [exact Htr|]. split; [exact Hb|].
  apply (Hfs 3 path1 None sj); [lia | reflexivity | by vm_compute].
Defined.

(** ** A missing option *)

Lemma choose_None v e :
  choose v e = None ↔ ∀ o, o ∈ options e → opt_value o ≠ v ∧ opt_label o ≠ v.
Proof.
  unfold choose. destruct (List.find _ _) as [o|] eqn:Hf; cbn.
  - split; [done|]. intros Hno. apply List.find_some in Hf as [Hin Hm].
    apply list_elem_of_In in Hin. destruct (Hno o Hin) as [Hv Hl].
    unfold option_matches in Hm.
    rewrite (bool_decide_eq_false_2 _ Hv), (bool_decide_eq_false_2 _ Hl) in Hm.
    discriminate Hm.
  - split; [|done]. intros _ o Hin. apply list_elem_of_In in Hin.
    pose proof (List.find_none _ _ Hf o Hin) as Hm.
    unfold option_matches in Hm. apply orb_false_iff in Hm as [Hv Hl].
    split; by apply (bool_decide_eq_false_1 _).
Qed.

Lemma resolve_err l d e :
  resolve l d = inl e → e = NoElement ∨ e = StrictModeViolation.
Proof.
  unfold resolve. intros H. repeat case_match; simplify_eq; eauto.
Qed.

(** [select_option] raises [OptionNotFound] exactly when the locator
    resolves to a control none of whose options has the requested string as
    its value or label. *)
Lemma select_on_option_missing w l v d :
  select_on w l v d = inl OptionNotFound
  ↔ ∃ i e, resolve l d = inr i ∧ d !! i = Some e ∧ choose v e = None.
Proof.
  unfold select_on. split.
  - intros H. destruct (resolve l d) as [e|i] eqn:Hr.
    + injection H as ->. by destruct (resolve_err _ _ _ Hr).
    + destruct (d !! i) as [e|] eqn:Hi; [|done].
      destruct (choose v e) eqn:Hc; [done|]. eauto.
  - intros (i & e & Hr & Hi & Hc). by rewrite Hr, Hi, Hc.
Qed.

Section Prefixes.
Variable w : world.

(** A call on the page that went through leaves the page open. *)
Lemma perform_page_open a s s' :
  perform w a s = (s', inr ()) → is_page_action a → page_open s' = true.
Proof.
  rewrite perform_eq. intros H Ha.
  destruct a; try done; repeat case_match; by simplify_eq.
Qed.

(** If the first [k] calls went through, so did the first [j ≤ k]. *)
Lemma prefix_ok l s k sk j :
  perform_all w (take k l) s = (sk, inr ()) → j ≤ k →
  ∃ sj, perform_all w (take j l) s = (sj, inr ()).
Proof.
  intros Hk Hj. replace k with (j + (k - j)) in Hk by lia.
  rewrite <- take_take_drop, perform_all_app in Hk.
  destruct (perform_all w (take j l) s) as [sj [?|[]]]; [done|]. by exists sj.
Qed.

Lemma page_open_from_shot files k sk p fp :
  script !! k = Some (AScreenshot p fp) →
  perform_all w (take (S k) script) (started files) = (sk, inr ()) →
  page_open sk = true.
Proof.
  intros Hk. rewrite (take_S_r _ _ _ Hk), perform_all_app. intros H.
  destruct (perform_all w (take k script) _) as [s1 [?|[]]]; [done|].
  rewrite perform_all_cons in H.
  destruct (perform w _ s1) as [s2 [?|[]]] eqn:Ha; [done|].
  injection H as <-. by apply (perform_page_open _ _ _ Ha).
Qed.
End Prefixes.

(** The [n]-th screenshot file is written by the call at position [2n + 3]. *)
Lemma paths_script n p :
  paths !! n = Some p → script !! (2 * n + 3) = Some (AScreenshot p None).
Proof.
  intros Hn. do 4 (destruct n as [|n]; [by injection Hn as <-|]). done.
Qed.

Lemma shot_not_in_take n p k fp :
  paths !! n = Some p → k ≤ 2 * n + 3 → AScreenshot p fp ∉ take k script.
Proof.
  intros Hn Hk Hin. apply list_elem_of_lookup in Hin as [i Hi].
  apply lookup_take_Some in Hi as [Hi Hlt].
  pose proof (script_shot_unique _ _ _ _ _ Hi (paths_script _ _ Hn)). lia.
Qed.

(** C2, refuted as stated: on a form whose first control has no option with
    the value "dog", but one labelled "dog", the second step does not fail:
    the option is found by its label and the run succeeds with all its
    calls. *)
Lemma C2_label_is_enough :
  ∃ sk e,
    perform_all label_world (take 4 script) (started ∅) = (sk, inr ())
    ∧ resolve (loc1 Page) (dom sk) = inr 0
    ∧ dom sk !! 0 = Some e
    ∧ (∀ o, o ∈ options e → opt_value o ≠ "dog")
    ∧ exit_status (invoke label_world ∅).2 = 0
    ∧ trace (invoke label_world ∅).1 = script.
Proof.
  exists (perform_all label_world (take 4 script) (started ∅)).1.
  eexists. split; [by vm_compute|]. split; [by vm_compute|].
  split; [by vm_compute|]. split; [|split; by vm_compute].
  intros o Ho. cbn in Ho. elem_cases Ho; subst; cbn; discriminate.
Qed.

(** C2, amended: at each step N that has a selection (2, 3 and 4; step 1 only takes a
    screenshot), if the run gets to the selection and the control the
    locator resolves to has no option whose value or label is the requested
    string, the script stops there with the error propagated: the exit
    status is 1, the selection is the last call issued, the screenshots of
    the steps before N are on disk, and the paths of step N and of the later
    steps are as they were before the run, no screenshot call for them
    having been issued. *)
Theorem C2_missing_option w files N l v sk i e :
  driver_ok w = true →
  script !! (2 * N) = Some (ASelectOption l v) →
  perform_all w (take (2 * N) script) (started files) = (sk, inr ()) →
  resolve l (dom sk) = inr i →
  dom sk !! i = Some e →
  (∀ o, o ∈ options e → opt_value o ≠ v ∧ opt_label o ≠ v) →
  (invoke w files).2 = inl OptionNotFound
  ∧ exit_status (invoke w files).2 = 1
  ∧ trace (invoke w files).1 = take (2 * N + 1) script
  ∧ (∀ n p, n < N - 1 → paths !! n = Some p →
       ∃ d, fs (invoke w files).1 !! p = Some (shot d))
  ∧ (∀ n p, N - 1 ≤ n → paths !! n = Some p →
       fs (invoke w files).1 !! p = files !! p
       ∧ ∀ fp, AScreenshot p fp ∉ trace (invoke w files).1).
Proof.
  intros Hd Hsel Hpre Hres He Hopt.
  assert (2 ≤ N ≤ 4) as HN.
  { pose proof (lookup_lt_Some _ _ _ Hsel) as Hlen. cbn [length script] in Hlen.
    assert (N = 0 ∨ N = 1 ∨ N = 2 ∨ N = 3 ∨ N = 4 ∨ N = 5) as HN by lia.
    destruct HN as [->|[->|[->|[->|[->| ->]]]]]; try discriminate Hsel; lia. }
  assert (page_open sk = true) as Hopen.
  { destruct (paths !! (N - 2)) as [p|] eqn:Hp.
    - apply (page_open_from_shot w files (2 * N - 1) sk p None).
      + rewrite <- (paths_script _ _ Hp). f_equal. lia.
      + by replace (S (2 * N - 1)) with (2 * N) by lia.
    - apply lookup_ge_None in Hp. simpl in Hp. lia. }
  assert (perform w (ASelectOption l v) sk
          = (log (ASelectOption l v) sk, inl OptionNotFound)) as Ha.
  { rewrite perform_eq, Hopen.
    assert (select_on w l v (dom sk) = inl OptionNotFound) as ->; [|done].
    apply select_on_option_missing. exists i, e. repeat split; try done.
    by apply choose_None. }
  rewrite (invoke_fail w files _ _ _ _ _ Hd Hsel Hpre Ha).
  cbn [fst snd set_driver log trace fs exit_status].
  assert (trace sk ++ [ASelectOption l v] = take (2 * N + 1) script) as Htr.
  { rewrite (perform_all_trace_ok _ _ _ _ Hpre).
    cbn [started init set_driver trace app].
    replace (2 * N + 1) with (S (2 * N)) by lia. by rewrite (take_S_r _ _ _ Hsel). }
  repeat split; try done.
  - intros n p Hn Hp.
    destruct (prefix_ok w script _ (2 * N) sk (2 * n + 3) Hpre) as [sj Hsj]; [lia|].
    exists (dom sj).
    apply (screenshot_stays w files (2 * n + 3) (2 * N) p None sj sk);
      [lia | by apply paths_script | done | done].
  - rewrite (perform_all_fs_frame _ _ _ _ _ p Hpre); [done|].
    intros fp. apply (shot_not_in_take n); [done|lia].
  - intros fp. rewrite Htr. apply (shot_not_in_take n); [done|lia].
Qed.

Lemma C2_missing_option_witness :
  (invoke no_b_world ∅).2 = inl OptionNotFound
  ∧ trace (invoke no_b_world ∅).1 = take 7 script
  ∧ (∃ d, fs (invoke no_b_world ∅).1 !! path2 = Some (shot d))
  ∧ fs (invoke no_b_world ∅).1 !! path3 = None.
Proof.
  pose (sk := (perform_all no_b_world (take 6 script) (started ∅)).1).
  destruct (C2_missing_option no_b_world ∅ 3 (loc2 Page) "b" sk 1
              (select_elt [("aria-label", "kind")] ["a"; "c"] "a"))
    as (He & _ & Htr & Hbefore & Hafter);
    [reflexivity | reflexivity | by vm_compute | by vm_compute | by vm_compute
    | | ].
  - intros o Ho. cbn in Ho. elem_cases Ho; subst; by split.
  - split; [exact He|]. split; [exact Htr|].
    split; [apply (Hbefore 1 path2); [lia|reflexivity]|].
    destruct (Hafter 2 path3) as [Hfs _]; [lia|reflexivity|].
    rewrite Hfs. apply lookup_empty.
Defined.

(** ** Selections and what the screenshots show *)

Section Selection.
Variable w : world.

Lemma select_on_inv l v d d' :
  select_on w l v d = inr d' →
  ∃ i e v',
    resolve l d = inr i ∧ d !! i = Some e ∧ choose v e = Some v'
    ∧ d' = on_change w i (<[i := set_value v' e]> d).
Proof.
  unfold select_on. intros H.
  destruct (resolve l d) as [?|i]; [done|].
  destruct (d !! i) as [e|] eqn:Hi; [|done].
  destruct (choose v e) as [v'|] eqn:Hc; [|done].
  injection H as <-. by exists i, e, v'.
Qed.

(** When the application does not itself rewrite the document, a selection
    changes the value of the control it resolved to and nothing else. *)
Lemma select_on_passive l v d d' i :
  (∀ j d, on_change w j d = d) →
  select_on w l v d = inr d' →
  resolve l d = inr i →
  (∃ e v', d !! i = Some e ∧ choose v e = Some v'
           ∧ d' !! i = Some (set_value v' e))
  ∧ (∀ j, j ≠ i → d' !! j = d !! j).
Proof.
  intros Hpassive Hsel Hres.
  destruct (select_on_inv _ _ _ _ Hsel) as (i' & e & v' & Hres' & Hi & Hc & ->).
  rewrite Hres in Hres'. injection Hres' as <-. rewrite Hpassive. split.
  - exists e, v'. repeat split; try done.
    apply list_lookup_insert_eq. by apply (lookup_lt_Some _ _ e).
  - intros j Hj. by apply list_lookup_insert_ne.
Qed.
End Selection.

(** C6: in a successful run the calls are issued strictly in program order,
    and each screenshot holds the document as it stood at that point: the
    first the document as served, the second the result of the first
    selection on it, the third the result of the second selection on that,
    the fourth the result of the third selection on that; no screenshot
    shows a later selection.  When the application does not rewrite the
    document on its own and the three selections resolve to three different
    controls, the earlier selections are still in effect in the later
    screenshots. *)
Theorem C6_screenshots_are_cumulative w files :
  exit_status (invoke w files).2 = 0 →
  ∃ d0 d1 d2 d3,
    trace (invoke w files).1 = script
    ∧ server w url = Some d0
    ∧ select_on w (loc1 Page) "dog" d0 = inr d1
    ∧ select_on w (loc2 Page) "b" d1 = inr d2
    ∧ select_on w (loc3 Page) "member" d2 = inr d3
    ∧ fs (invoke w files).1 !! path1 = Some (shot d0)
    ∧ fs (invoke w files).1 !! path2 = Some (shot d1)
    ∧ fs (invoke w files).1 !! path3 = Some (shot d2)
    ∧ fs (invoke w files).1 !! path4 = Some (shot d3)
    ∧ ((∀ j d, on_change w j d = d) →
       ∀ i1 i2 i3,
         resolve (loc1 Page) d0 = inr i1 →
         resolve (loc2 Page) d1 = inr i2 →
         resolve (loc3 Page) d2 = inr i3 →
         i1 ≠ i2 → i1 ≠ i3 → i2 ≠ i3 →
         ∃ e1 v1 e2 v2 e3 v3,
           d0 !! i1 = Some e1 ∧ choose "dog" e1 = Some v1
           ∧ d1 !! i2 = Some e2 ∧ choose "b" e2 = Some v2
           ∧ d2 !! i3 = Some e3 ∧ choose "member" e3 = Some v3
           ∧ d1 !! i1 = Some (set_value v1 e1)
           ∧ d2 !! i1 = Some (set_value v1 e1)
           ∧ d2 !! i2 = Some (set_value v2 e2)
           ∧ d3 !! i1 = Some (set_value v1 e1)
           ∧ d3 !! i2 = Some (set_value v2 e2)
           ∧ d3 !! i3 = Some (set_value v3 e3)).
Proof.
  intros Hx. pose proof (invoke_ok_trace _ _ Hx) as Htr.
  destruct (invoke_ok_inv _ _ Hx) as (_ & s & Hs & Hinv).
  destruct (run_ok_inv _ _ _ Hs)
    as (d0 & d1 & d2 & d3 & Hok & ->).
  destruct Hok as (_ & _ & Hsrv & _ & Hs1 & _ & Hs2 & _ & Hs3 & _).
  exists d0, d1, d2, d3. rewrite Hinv. rewrite Hinv in Htr.
  cbn [fst set_driver fs] in *.
  destruct (final_fs_lookup files d0 d1 d2 d3) as (H1 & H2 & H3 & H4).
  repeat (split; [done|]).
  intros Hpassive i1 i2 i3 Hr1 Hr2 Hr3 H12 H13 H23.
  destruct (select_on_passive _ _ _ _ _ _ Hpassive Hs1 Hr1)
    as ((e1 & v1 & He1 & Hc1 & Hv1) & Ho1).
  destruct (select_on_passive _ _ _ _ _ _ Hpassive Hs2 Hr2)
    as ((e2 & v2 & He2 & Hc2 & Hv2) & Ho2).
  destruct (select_on_passive _ _ _ _ _ _ Hpassive Hs3 Hr3)
    as ((e3 & v3 & He3 & Hc3 & Hv3) & Ho3).
  exists e1, v1, e2, v2, e3, v3.
  repeat split; try done.
  - by rewrite Ho2.
  - by rewrite Ho3, Ho2.
  - by rewrite Ho3.
Qed.

Lemma C6_screenshots_are_cumulative_witness :
  ∃ d1 d3,
    fs (invoke demo_world ∅).1 !! path2 = Some (shot d1)
    ∧ fs (invoke demo_world ∅).1 !! path4 = Some (shot d3)
    ∧ value <$> d1 !! 0 = Some "dog"
    ∧ value <$> d1 !! 2 = Some "guest"
    ∧ value <$> d3 !! 0 = Some "dog"
    ∧ value <$> d3 !! 1 = Some "b"
    ∧ value <$> d3 !! 2 = Some "member".
Proof.
  destruct (C6_screenshots_are_cumulative demo_world ∅)
    as (d0 & d1 & d2 & d3 & _ & Hsrv & Hs1 & Hs2 & Hs3 & _ & H2 & _ & H4 & Hind);
    [by vm_compute|].
  vm_compute in Hsrv. injection Hsrv as <-.
  vm_compute in Hs1. injection Hs1 as <-.
  vm_compute in Hs2. injection Hs2 as <-.
  vm_compute in Hs3. injection Hs3 as <-.
  destruct (Hind (λ _ _, eq_refl) 0 1 2)
    as (e1 & v1 & e2 & v2 & e3 & v3 & He1 & Hc1 & He2 & Hc2 & He3 & Hc3
        & H11 & H21 & H22 & H31 & H32 & H33);
    [by vm_compute | by vm_compute | by vm_compute | lia | lia | lia |].
  eexists _, _. split; [exact H2|]. split; [exact H4|].
  repeat split; by vm_compute.
Defined.

(** ** Strict and narrowed locators *)

(** A locator that is not narrowed resolves only when exactly one element
    matches. *)
Lemma resolve_strict l d :
  sel_pick l = Strict →
  (length (matching l d) = 0 → resolve l d = inl NoElement)
  ∧ (2 ≤ length (matching l d) → resolve l d = inl StrictModeViolation)
  ∧ (∀ i, resolve l d = inr i → length (matching l d) = 1).
Proof.
  intros Hp. unfold resolve. rewrite Hp.
  destruct (matching l d) as [|i [|i' rest]]; cbn [length];
    repeat split; try done; lia.
Qed.

(** A locator narrowed by [.first] or [.last] resolves as soon as something
    matches. *)
Lemma resolve_narrowed l d :
  sel_pick l ≠ Strict →
  1 ≤ length (matching l d) → ∃ i, resolve l d = inr i.
Proof.
  intros Hp Hlen. unfold resolve.
  destruct (matching l d) as [|i rest]; [cbn in Hlen; lia|].
  destruct (sel_pick l); [done| |]; eauto.
Qed.

(** C9: the second selection is made through the locator
    [select[aria-label="kind"]] as it is, without [.first] or [.last] (the
    first and third selections are narrowed, and resolve whenever something
    matches).  When the run gets to it, it raises if no element matches and
    also if two or more do; it goes through only if exactly one matches. *)
Theorem C9_kind_locator_is_strict w files sk :
  driver_ok w = true →
  perform_all w (take 6 script) (started files) = (sk, inr ()) →
  script !! 6 = Some (ASelectOption (loc2 Page) "b")
  ∧ sel_pick (loc2 Page) = Strict
  ∧ (length (matching (loc2 Page) (dom sk)) = 0 →
     (invoke w files).2 = inl NoElement
     ∧ trace (invoke w files).1 = take 7 script)
  ∧ (2 ≤ length (matching (loc2 Page) (dom sk)) →
     (invoke w files).2 = inl StrictModeViolation
     ∧ trace (invoke w files).1 = take 7 script)
  ∧ (∀ s', perform w (ASelectOption (loc2 Page) "b") sk = (s', inr ()) →
       length (matching (loc2 Page) (dom sk)) = 1)
  ∧ (∀ d, 1 ≤ length (matching (loc1 Page) d) → ∃ i, resolve (loc1 Page) d = inr i)
  ∧ (∀ d, 1 ≤ length (matching (loc3 Page) d) → ∃ i, resolve (loc3 Page) d = inr i).
Proof.
  intros Hd Hpre.
  assert (page_open sk = true) as Hopen
    by (by apply (page_open_from_shot w files 5 sk path2 None)).
  destruct (resolve_strict (loc2 Page) (dom sk) eq_refl) as (H0 & H2 & H1).
  assert (∀ e, resolve (loc2 Page) (dom sk) = inl e →
            (invoke w files).2 = inl e
            ∧ trace (invoke w files).1 = take 7 script) as Hfail.
  { intros e Hres.
    assert (perform w (ASelectOption (loc2 Page) "b") sk
            = (log (ASelectOption (loc2 Page) "b") sk, inl e)) as Ha.
    { rewrite perform_eq, Hopen. unfold select_on. by rewrite Hres. }
    rewrite (invoke_fail w files 6 _ _ _ _ Hd eq_refl Hpre Ha).
    cbn [fst snd set_driver log trace]. split; [done|].
    by rewrite (perform_all_trace_ok _ _ _ _ Hpre). }
  split; [done|]. split; [done|].
  split; [intros Hn; by apply Hfail, H0|].
  split; [intros Hn; by apply Hfail, H2|].
  split; [|split].
  - intros s' Hs'. rewrite perform_eq, Hopen in Hs'.
    destruct (select_on w (loc2 Page) "b" (dom sk)) as [?|d'] eqn:Hsel; [done|].
    destruct (select_on_inv _ _ _ _ _ Hsel) as (i & _ & _ & Hres & _).
    by apply (H1 i).
  - intros d Hlen. by apply resolve_narrowed.
  - intros d Hlen. by apply resolve_narrowed.
Qed.

Lemma C9_kind_locator_is_strict_witness :
  length (matching (loc2 Page) two_kinds_doc) = 2
  ∧ (invoke two_kinds_world ∅).2 = inl StrictModeViolation
  ∧ trace (invoke two_kinds_world ∅).1 = take 7 script
  ∧ ∃ i, resolve (loc3 Page) two_kinds_doc = inr i.
Proof.
  pose (sk := (perform_all two_kinds_world (take 6 script) (started ∅)).1).
  destruct (C9_kind_locator_is_strict two_kinds_world ∅ sk)
    as (_ & _ & _ & Hmany & _ & _ & Hlast);
    [reflexivity | by vm_compute |].
  split; [by vm_compute|].
  destruct Hmany as [He Htr]; [vm_compute; lia|].
  split; [exact He|]. split; [exact Htr|].
  apply Hlast. vm_compute. lia.
Defined.


(** * Further properties of the script *)

(** ** When the script succeeds *)



(** ** The script never acts on a closed page *)

Lemma select_on_err w l v d e :
  select_on w l v d = inl e →
  e = NoElement ∨ e = StrictModeViolation ∨ e = OptionNotFound.
Proof.
  unfold select_on. intros H.
  destruct (resolve l d) as [e'|i] eqn:Hr.
  - injection H as ->. destruct (resolve_err _ _ _ Hr); eauto.
  - repeat case_match; simplify_eq; eauto.
Qed.

Lemma perform_opens_page w a s s' :
  perform w a s = (s', inr ()) → a ≠ ALaunch → a ≠ AClose → page_open s' = true.
Proof.
  rewrite perform_eq. intros H Hl Hc.
  destruct a; try done; repeat case_match; by simplify_eq.
Qed.

(** From the opening of the page up to [close], the page is open. *)
Lemma page_open_after w files k sk :
  2 ≤ k ≤ 10 →
  perform_all w (take k script) (started files) = (sk, inr ()) →
  page_open sk = true.
Proof.
  intros Hk Hpre. destruct k as [|k]; [lia|].
  destruct (script !! k) as [a|] eqn:Ha;
    [|apply lookup_ge_None in Ha; cbn in Ha; lia].
  rewrite (take_S_r _ _ _ Ha), perform_all_app in Hpre.
  destruct (perform_all w (take k script) _) as [s1 [?|[]]]; [done|].
  rewrite perform_all_cons in Hpre.
  destruct (perform w a s1) as [s2 [?|[]]] eqn:Hp; [done|].
  injection Hpre as <-. apply (perform_opens_page _ _ _ _ Hp).
  - intros ->. destruct k as [|k]; [lia|].
    do 10 (destruct k as [|k]; [discriminate Ha|]). discriminate Ha.
  - intros ->. do 10 (destruct k as [|k]; [discriminate Ha|]). lia.
Qed.

(** Whatever the world does, the script never fails for having used a page
    or a browser that is not open: it launches before it opens the page,
    opens the page before it uses it, and closes last. *)
Theorem never_target_closed w files :
  (invoke w files).2 ≠ inl TargetClosed.
Proof.
  intros He. destruct (driver_ok w) eqn:Hd;
    [|by rewrite invoke_no_driver in He].
  destruct (invoke_err_inv _ _ _ Hd He) as (k & a & sk & s' & Hk & Hpre & Ha & _).
  pose proof (fail_before_close _ _ _ _ _ _ Hk Ha) as Hlt.
  rewrite perform_eq in Ha.
  destruct (decide (k = 0)) as [->|Hk0].
  { injection Hk as <-. injection Hpre as <-. by destruct (launch_ok w). }
  destruct (decide (k = 1)) as [->|Hk1].
  { injection Hk as <-.
    rewrite (browser_open_before_close w files 1 sk) in Ha by (done || lia).
    by destruct (new_page_ok w). }
  rewrite (page_open_after w files k sk) in Ha by (done || lia).
  assert (is_page_action a) as Hpage.
  { do 10 (destruct k as [|k]; [try lia; by injection Hk as <-|]). lia. }
  destruct a as [| |u|p fp|l v|]; try done.
  - by destruct (server w u).
  - by destruct (writable w p).
  - destruct (select_on w l v (dom sk)) as [e|] eqn:Hsel; [|done].
    injection Ha as _ ->.
    by destruct (select_on_err _ _ _ _ _ Hsel) as [|[|]].
Qed.

(** ** What the script does to the disk *)

(** Whatever happens, a path that is not one of the four screenshot paths
    is left exactly as it was. *)
Theorem other_paths_untouched w files p :
  p ∉ paths → fs (invoke w files).1 !! p = files !! p.
Proof.
  intros Hp. destruct (driver_ok w) eqn:Hd; [|by rewrite invoke_no_driver].
  rewrite invoke_started by done.
  destruct (perform_all w script (started files)) as [s r] eqn:Hrun.
  cbn [fst set_driver fs].
  rewrite (perform_all_fs_frame _ _ _ _ _ p Hrun); [done|].
  intros fp Hin. apply Hp. unfold script in Hin. unfold paths.
  elem_cases Hin; injection Hin as -> _; repeat constructor.
Qed.

Lemma other_paths_untouched_witness :
  fs (invoke demo_world other_files).1 !! "notes.png" = Some (shot []).
Proof.
  rewrite (other_paths_untouched demo_world other_files "notes.png").
  - by vm_compute.
  - apply (bool_decide_unpack _). vm_compute. exact I.
Defined.

(** After a failed invocation the screenshots written are those of the
    steps that were completed, and there are at most three of them: for
    some [m ≤ 3], the first [m] paths hold a capture and the others are as
    they were before the invocation. *)
Theorem failure_leaves_a_prefix w files e :
  (invoke w files).2 = inl e →
  ∃ m, m ≤ 3
    ∧ ∀ n p, paths !! n = Some p →
        (n < m → ∃ d, fs (invoke w files).1 !! p = Some (shot d))
        ∧ (m ≤ n → fs (invoke w files).1 !! p = files !! p).
Proof.
  intros He. destruct (driver_ok w) eqn:Hd.
  - destruct (invoke_err_inv _ _ _ Hd He)
      as (k & a & sk & s' & Hk & Hpre & Ha & _ & ->).
    pose proof (fail_before_close _ _ _ _ _ _ Hk Ha) as Hlt.
    cbn [fst set_driver fs]. rewrite (perform_fs_err _ _ _ _ _ Ha).
    exists ((k - 2) / 2).
    split; [assert ((k - 2) / 2 < 4); [apply Nat.Div0.div_lt_upper_bound|]; lia|].
    intros n p Hp.
    assert (n < (k - 2) / 2 ↔ 2 * n + 3 < k) as Hiff.
    { split; intros H.
      - destruct (decide (2 * n + 3 < k)) as [|Hge]; [done|].
        assert ((k - 2) / 2 < S n); [|lia].
        apply Nat.Div0.div_lt_upper_bound. lia.
      - apply Nat.div_le_lower_bound; lia. }
    split.
    + intros Hn. apply Hiff in Hn.
      destruct (prefix_ok w script _ k sk (2 * n + 3) Hpre) as [sj Hsj]; [lia|].
      exists (dom sj).
      apply (screenshot_stays w files (2 * n + 3) k p None sj sk);
        [done | by apply paths_script | done | done].
    + intros Hn. rewrite (perform_all_fs_frame _ _ _ _ _ p Hpre); [done|].
      intros fp. apply (shot_not_in_take n); [done|].
      destruct (decide (2 * n + 3 < k)) as [Hlt'|]; [|lia].
      apply Hiff in Hlt'. lia.
  - rewrite invoke_no_driver by done. exists 0. split; [lia|].
    intros n p Hp. split; [lia|done].
Qed.

Lemma failure_leaves_a_prefix_witness :
  ∃ m, m ≤ 3
    ∧ ∀ n p, paths !! n = Some p →
        (n < m → ∃ d, fs (invoke no_b_world ∅).1 !! p = Some (shot d))
        ∧ (m ≤ n → fs (invoke no_b_world ∅).1 !! p = (∅ : gmap string image) !! p).
Proof.
  apply (failure_leaves_a_prefix no_b_world ∅ OptionNotFound). by vm_compute.
Defined.

(** ** Which element a narrowed locator picks *)

Lemma matches_spec l e :
  matches l e = true
  ↔ tag e = sel_tag l ∧ get_attribute (sel_attr l) (attrs e) = Some (sel_val l).
Proof.
  unfold matches. rewrite andb_true_iff, !bool_decide_eq_true. done.
Qed.

Lemma matching_from_spec l k d j :
  j ∈ matching_from l k d
  ↔ k ≤ j ∧ ∃ e, d !! (j - k) = Some e ∧ matches l e = true.
Proof.
  revert k. induction d as [|e d IH]; intros k; cbn [matching_from].
  - split; [by intros ?%elem_of_nil|]. by intros (_ & e & ? & _).
  - assert (j ∈ matching_from l (S k) d
            ↔ k < j ∧ ∃ e', (e :: d) !! (j - k) = Some e' ∧ matches l e' = true)
      as Htail.
    { rewrite IH. split.
      - intros (Hk & e' & He' & Hm). split; [lia|]. exists e'. split; [|done].
        by replace (j - k) with (S (j - S k)) by lia.
      - intros (Hk & e' & He' & Hm). split; [lia|]. exists e'. split; [|done].
        by replace (j - k) with (S (j - S k)) in He' by lia. }
    destruct (matches l e) eqn:Hme.
    + rewrite elem_of_cons, Htail. split.
      * intros [->|(Hk & He)]; [|split; [lia|done]].
        split; [lia|]. exists e. by rewrite Nat.sub_diag.
      * intros (Hk & He). destruct (decide (j = k)) as [|Hne]; [by left|].
        right. split; [lia|done].
    + rewrite Htail. split.
      * intros (Hk & He). split; [lia|done].
      * intros (Hk & e' & He' & Hm). split; [|by exists e'].
        destruct (decide (j = k)) as [->|]; [|lia].
        rewrite Nat.sub_diag in He'. injection He' as <-. congruence.
Qed.

Lemma matching_spec l d j :
  j ∈ matching l d ↔ ∃ e, d !! j = Some e ∧ matches l e = true.
Proof.
  unfold matching. rewrite matching_from_spec, Nat.sub_0_r. split.
  - by intros [_ H].
  - intros H. split; [lia|done].
Qed.

(** The matching positions come in increasing order. *)
Lemma matching_from_sorted l k d : StronglySorted lt (matching_from l k d).
Proof.
  revert k. induction d as [|e d IH]; intros k; cbn [matching_from];
    [constructor|].
  destruct (matches l e); [|apply IH].
  constructor; [apply IH|]. apply Forall_forall. intros j Hj.
  apply matching_from_spec in Hj as [Hj _]. lia.
Qed.

Lemma last_cons_default (rest : list nat) x i :
  List.last (x :: rest) i = List.last rest x.
Proof.
  revert x i. induction rest as [|y rest IH]; intros x i; [done|].
  change (List.last (y :: rest) i = List.last (y :: rest) x).
  by rewrite !IH.
Qed.

Lemma last_in_and_max (i : nat) rest :
  StronglySorted lt (i :: rest) →
  List.last rest i ∈ i :: rest ∧ ∀ j, j ∈ i :: rest → j ≤ List.last rest i.
Proof.
  revert i. induction rest as [|i' rest IH]; intros i Hs.
  - cbn. split; [by left|]. intros j Hj. elem_cases Hj. lia.
  - apply StronglySorted_inv in Hs as [Hs Hall].
    destruct (IH i' Hs) as [Hin Hmax].
    rewrite last_cons_default.
    split; [by right|]. intros j Hj. apply elem_of_cons in Hj as [->|Hj].
    + apply Forall_cons in Hall as [Hlt _].
      pose proof (Hmax i' ltac:(by left)). lia.
    + by apply Hmax.
Qed.

(** A locator narrowed by [.first] (line 11) resolves to the first element
    of the document that has the tag and the attribute value of the
    selector: that element matches, and none before it does. *)
Theorem first_picks_first_match l d i :
  sel_pick l = First →
  resolve l d = inr i →
  (∃ e, d !! i = Some e ∧ tag e = sel_tag l
        ∧ get_attribute (sel_attr l) (attrs e) = Some (sel_val l))
  ∧ (∀ j e, j < i → d !! j = Some e → matches l e = false).
Proof.
  intros Hp. unfold resolve. rewrite Hp.
  destruct (matching l d) as [|i0 rest] eqn:Hm; [done|]. intros [= ->].
  split.
  - assert (i ∈ matching l d) as Hin by (rewrite Hm; by left).
    apply matching_spec in Hin as (e & He & Hme).
    apply matches_spec in Hme as [Ht Ha]. by exists e.
  - intros j e Hj He. destruct (matches l e) eqn:Hme; [|done].
    assert (j ∈ matching l d) as Hin by (apply matching_spec; eauto).
    pose proof (matching_from_sorted l 0 d) as Hs.
    unfold matching in Hm, Hin. rewrite Hm in Hs, Hin.
    apply StronglySorted_inv in Hs as [_ Hall].
    apply elem_of_cons in Hin as [->|Hin]; [lia|].
    rewrite Forall_forall in Hall. pose proof (Hall j Hin). lia.
Qed.

Lemma first_picks_first_match_witness :
  ∃ e, two_kinds_doc !! 0 = Some e ∧ tag e = "select"
       ∧ get_attribute "name" (attrs e) = Some "type".
Proof.
  apply (first_picks_first_match (loc1 Page) two_kinds_doc 0);
    [reflexivity | by vm_compute].
Defined.

(** A locator narrowed by [.last] (line 19) resolves to the last element of
    the document that has the tag and the attribute value of the selector:
    that element matches, and none after it does. *)
Theorem last_picks_last_match l d i :
  sel_pick l = Last →
  resolve l d = inr i →
  (∃ e, d !! i = Some e ∧ tag e = sel_tag l
        ∧ get_attribute (sel_attr l) (attrs e) = Some (sel_val l))
  ∧ (∀ j e, i < j → d !! j = Some e → matches l e = false).
Proof.
  intros Hp. unfold resolve. rewrite Hp.
  destruct (matching l d) as [|i0 rest] eqn:Hm; [done|]. intros [= <-].
  pose proof (matching_from_sorted l 0 d) as Hs.
  unfold matching in Hm. rewrite Hm in Hs.
  destruct (last_in_and_max i0 rest Hs) as [Hin Hmax].
  assert (∀ j, j ∈ i0 :: rest ↔ ∃ e, d !! j = Some e ∧ matches l e = true)
    as Hspec.
  { intros j. rewrite <- Hm. apply matching_spec. }
  split.
  - apply Hspec in Hin as (e & He & Hme).
    apply matches_spec in Hme as [Ht Ha]. by exists e.
  - intros j e Hj He. destruct (matches l e) eqn:Hme; [|done].
    assert (j ∈ i0 :: rest) as Hjin by (apply Hspec; eauto).
    pose proof (Hmax j Hjin). lia.
Qed.

Lemma last_picks_last_match_witness :
  matching (loc3 Page) two_types_doc = [1; 3]
  ∧ (∃ e, two_types_doc !! 3 = Some e ∧ tag e = "select"
          ∧ get_attribute "aria-label" (attrs e) = Some "type")
  ∧ (∀ j e, 3 < j → two_types_doc !! j = Some e → matches (loc3 Page) e = false).
Proof.
  split; [by vm_compute|].
  apply (last_picks_last_match (loc3 Page) two_types_doc 3);
    [reflexivity | by vm_compute].
Defined.

(** ** A selector that matches nothing *)

(** At each of the three selections (lines 11, 15 and 19), if the run gets
    there and no element of the document has the tag and the attribute value
    of the selector, narrowed or not, the script stops at that call with the
    locator's error; nothing is written by the failing call. *)
Theorem no_match_fails w files N l v sk :
  driver_ok w = true →
  script !! (2 * N) = Some (ASelectOption l v) →
  perform_all w (take (2 * N) script) (started files) = (sk, inr ()) →
  (∀ e, e ∈ dom sk → matches l e = false) →
  (invoke w files).2 = inl NoElement
  ∧ trace (invoke w files).1 = take (2 * N + 1) script
  ∧ fs (invoke w files).1 = fs sk.
Proof.
  intros Hd Hsel Hpre Hno.
  assert (2 ≤ N ≤ 4) as HN.
  { pose proof (lookup_lt_Some _ _ _ Hsel) as Hlen. cbn [length script] in Hlen.
    assert (N = 0 ∨ N = 1 ∨ N = 2 ∨ N = 3 ∨ N = 4 ∨ N = 5) as HN by lia.
    destruct HN as [->|[->|[->|[->|[->| ->]]]]]; try discriminate Hsel; lia. }
  assert (page_open sk = true) as Hopen
    by (apply (page_open_after w files (2 * N)); [lia|done]).
  assert (matching l (dom sk) = []) as Hm.
  { destruct (matching l (dom sk)) as [|i rest] eqn:Hm; [done|].
    assert (i ∈ matching l (dom sk)) as Hin by (rewrite Hm; by left).
    apply matching_spec in Hin as (e & He & Hme).
    rewrite (Hno e) in Hme; [done|]. by apply list_elem_of_lookup_2 in He. }
  assert (perform w (ASelectOption l v) sk
          = (log (ASelectOption l v) sk, inl NoElement)) as Ha.
  { rewrite perform_eq, Hopen. unfold select_on, resolve. by rewrite Hm. }
  rewrite (invoke_fail w files _ _ _ _ _ Hd Hsel Hpre Ha).
  cbn [fst snd set_driver log trace fs]. repeat split.
  rewrite (perform_all_trace_ok _ _ _ _ Hpre).
  cbn [started init set_driver trace app].
  replace (2 * N + 1) with (S (2 * N)) by lia. by rewrite (take_S_r _ _ _ Hsel).
Qed.

Lemma no_match_fails_witness :
  (invoke no_type_world ∅).2 = inl NoElement
  ∧ trace (invoke no_type_world ∅).1 = take 5 script.
Proof.
  pose (sk := (perform_all no_type_world (take 4 script) (started ∅)).1).
  destruct (no_match_fails no_type_world ∅ 2 (loc1 Page) "dog" sk)
    as (He & Htr & _); [reflexivity | reflexivity | by vm_compute | |].
  - intros e He. vm_compute in He. elem_cases He. by subst.
  - split; [exact He | exact Htr].
Defined.

(** ** Two selections on the same control *)

(** When the first and the third selection resolve to the same control (it
    carries both [name="type"] and [aria-label="type"], first of the one and
    last of the other) and the application does not rewrite the document, a
    successful run shows on that control the value chosen for "dog" in the
    second screenshot and the value chosen for "member" in the fourth: the
    later selection replaces the earlier one. *)
Theorem later_selection_replaces_earlier w files :
  exit_status (invoke w files).2 = 0 →
  (∀ j d, on_change w j d = d) →
  ∃ d0 d1 d2 d3,
    server w url = Some d0
    ∧ select_on w (loc1 Page) "dog" d0 = inr d1
    ∧ select_on w (loc2 Page) "b" d1 = inr d2
    ∧ select_on w (loc3 Page) "member" d2 = inr d3
    ∧ fs (invoke w files).1 !! path2 = Some (shot d1)
    ∧ fs (invoke w files).1 !! path4 = Some (shot d3)
    ∧ ∀ i, resolve (loc1 Page) d0 = inr i → resolve (loc3 Page) d2 = inr i →
        ∃ e1 v1 e3 v3,
          d0 !! i = Some e1 ∧ choose "dog" e1 = Some v1
          ∧ d2 !! i = Some e3 ∧ choose "member" e3 = Some v3
          ∧ value <$> d1 !! i = Some v1
          ∧ value <$> d3 !! i = Some v3.
Proof.
  intros Hx Hpassive.
  destruct (invoke_ok_inv _ _ Hx) as (_ & s & Hs & ->).
  destruct (run_ok_inv _ _ _ Hs) as (d0 & d1 & d2 & d3 & Hok & ->).
  destruct Hok as (_ & _ & Hsrv & _ & Hs1 & _ & Hs2 & _ & Hs3 & _).
  exists d0, d1, d2, d3. cbn [fst set_driver fs].
  destruct (final_fs_lookup files d0 d1 d2 d3) as (_ & H2 & _ & H4).
  repeat (split; [done|]).
  intros i Hr1 Hr3.
  destruct (select_on_passive _ _ _ _ _ _ Hpassive Hs1 Hr1)
    as ((e1 & v1 & He1 & Hc1 & Hv1) & _).
  destruct (select_on_passive _ _ _ _ _ _ Hpassive Hs3 Hr3)
    as ((e3 & v3 & He3 & Hc3 & Hv3) & _).
  exists e1, v1, e3, v3. rewrite Hv1, Hv3. by repeat split.
Qed.

Lemma later_selection_replaces_earlier_witness :
  ∃ d1 d3,
    fs (invoke alias_world ∅).1 !! path2 = Some (shot d1)
    ∧ fs (invoke alias_world ∅).1 !! path4 = Some (shot d3)
    ∧ value <$> d1 !! 0 = Some "dog"
    ∧ value <$> d3 !! 0 = Some "member".
Proof.
  destruct (later_selection_replaces_earlier alias_world ∅)
    as (d0 & d1 & d2 & d3 & Hsrv & Hs1 & Hs2 & Hs3 & H2 & H4 & Hsame);
    [by vm_compute | done |].
  vm_compute in Hsrv. injection Hsrv as <-.
  vm_compute in Hs1. injection Hs1 as <-.
  vm_compute in Hs2. injection Hs2 as <-.
  vm_compute in Hs3. injection Hs3 as <-.
  destruct (Hsame 0) as (e1 & v1 & e3 & v3 & He1 & Hc1 & He3 & Hc3 & Hv1 & Hv3);
    [by vm_compute | by vm_compute |].
  injection He1 as <-. injection He3 as <-.
  vm_compute in Hc1. injection Hc1 as <-.
  vm_compute in Hc3. injection Hc3 as <-.
  eexists _, _. split; [exact H2|]. split; [exact H4|].
  split; [exact Hv1 | exact Hv3].
Defined.
